(** * perfumesmvp: the image scraper [scrape_images.py]

    A shallow embedding of the scraper's control logic and the properties
    its specification states about it.

    Modelling conventions.
    - A Python [str] is a Rocq [string]; a character is a code point below 256.
    - A Python [int] is a [Z].
    - A [dict] with string keys is a [gmap string _], a [set] of strings a
      [gset string].
    - An exception is a value of [exn]; code that may raise returns an
      [outcome].  Only the [Exception] class hierarchy is modelled:
      [KeyboardInterrupt] and [SystemExit] end the process and are no result
      of a call.  The recursion limit of the interpreter is not modelled
      either; [main] calls [fetch_image_url] with attempt 0, which recurses
      twice at most.
    - The network, the random generator and the [json] module are outside
      the repository: they are parameters ([env], [JsonCodec]).
      [python_json] is the instance of [JsonCodec] that follows the [json]
      module of the standard library, called as the source calls it.
    - What the process does to the outside is recorded in a [world]: the
      content of the output file and the chronological trace of attempts,
      sleeps and file writes.  A sleep is recorded by its kind; its duration
      is a float with random jitter.  Console output is not modelled.
    - The catalog is taken as parsed: a list of records whose address, when
      present, is a string. *)

From Stdlib Require Import Ascii String ZArith Lia DecimalString.
From stdpp Require Import gmap strings list fin_maps.

Set Warnings "-register-all".
Local Open Scope Z_scope.

(** ** Python values and exceptions *)

(** The values [json.load] can produce.  A float is carried as its 64-bit
    pattern: the program only copies such values. *)
Inductive pyval : Type :=
  | PNone
  | PBool (b : bool)
  | PInt (n : Z)
  | PFloat (bits : Z)
  | PStr (s : string)
  | PList (l : list pyval)
  | PDict (d : gmap string pyval).

(** [v is None] *)
Definition is_none (v : pyval) : bool :=
  match v with PNone => true | _ => false end.

(** An optional string ([None] or a [str]) as a Python value. *)
Definition py_of_img (img : option string) : pyval :=
  match img with Some s => PStr s | None => PNone end.

(** Truth value of an optional string: [None] and [''] are false. *)
Definition truthy (img : option string) : bool :=
  match img with
  | Some s => negb (String.eqb s "")
  | None => false
  end.

(** [urllib.error.HTTPError] with its status code, and any exception of
    another class, with the name of that class for the record. *)
Inductive exn : Type :=
  | HTTPError (code : Z)
  | Exception (cls : string).

Inductive outcome (A : Type) : Type :=
  | Returns (a : A)
  | Raises (e : exn).
Arguments Returns {A} a.
Arguments Raises {A} e.

(** ** Regular expressions, as far as the patterns of the source use them *)

Module Re.

Inductive item : Type :=
  | IChr (c : ascii)
  | ISpace.

Inductive re : Type :=
  | Eps
  | Chr (c : ascii)
  | Cls (neg : bool) (items : list item)
  | Seq (r1 r2 : re)
  | Alt (r1 r2 : re)
  | Star (r : re)
  | Group (r : re).

Definition Plus (r : re) : re := Seq r (Star r).

(** The literal pattern for a string without special characters. *)
Fixpoint lit (s : string) : re :=
  match s with
  | EmptyString => Eps
  | String c EmptyString => Chr c
  | String c s' => Seq (Chr c) (lit s')
  end.

(** [\s] on code points below 256. *)
Definition is_space (c : ascii) : bool :=
  let n := nat_of_ascii c in
  ((9 <=? n) && (n <=? 13) || (28 <=? n) && (n <=? 32)
   || (n =? 133) || (n =? 160))%nat.

Definition item_has (c : ascii) (i : item) : bool :=
  match i with
  | IChr a => Ascii.eqb c a
  | ISpace => is_space c
  end.

Definition cls_has (neg : bool) (items : list item) (c : ascii) : bool :=
  xorb neg (existsb (item_has c) items).

(** Backtracking matcher in continuation-passing style: alternatives are
    tried left to right, repetition is greedy.  [g] is the text of group 1
    once it has been closed. *)
Fixpoint rmatch {R : Type} (r : re) (s : list ascii) (g : option string)
    (k : list ascii → option string → option R) : option R :=
  match r with
  | Eps => k s g
  | Chr c =>
      match s with
      | a :: s' => if Ascii.eqb a c then k s' g else None
      | [] => None
      end
  | Cls neg items =>
      match s with
      | a :: s' => if cls_has neg items a then k s' g else None
      | [] => None
      end
  | Seq r1 r2 => rmatch r1 s g (λ s' g', rmatch r2 s' g' k)
  | Alt r1 r2 =>
      match rmatch r1 s g k with
      | Some x => Some x
      | None => rmatch r2 s g k
      end
  | Star r1 =>
      (fix loop (n : nat) (s : list ascii) (g : option string) : option R :=
         match n with
         | O => k s g
         | S n' =>
             match rmatch r1 s g
                     (λ s' g', if (length s' <? length s)%nat
                               then loop n' s' g' else None) with
             | Some x => Some x
             | None => k s g
             end
         end) (length s) s g
  | Group r1 =>
      rmatch r1 s g
        (λ s' _, k s' (Some (string_of_list_ascii
                               (take (length s - length s') s))))
  end.

(** [re.search]: the leftmost position where the pattern matches; the
    result is [group(1)] of the match object. *)
Fixpoint search_from (r : re) (s : list ascii) : option (option string) :=
  match rmatch r s None (λ _ g, Some g) with
  | Some g => Some g
  | None =>
      match s with
      | [] => None
      | _ :: s' => search_from r s'
      end
  end.

Definition search (r : re) (s : string) : option (option string) :=
  search_from r (list_ascii_of_string s).

(** A lower bound on the number of characters a match consumes. *)
Fixpoint min_len (r : re) : nat :=
  match r with
  | Eps => 0
  | Chr _ => 1
  | Cls _ _ => 1
  | Seq r1 r2 => min_len r1 + min_len r2
  | Alt r1 r2 => min_len r1 `min` min_len r2
  | Star _ => 0
  | Group r1 => min_len r1
  end.

End Re.

(** [needle in hay] on strings *)
Fixpoint contains (needle hay : string) : bool :=
  match hay with
  | EmptyString => String.prefix needle EmptyString
  | String _ hay' => String.prefix needle hay || contains needle hay'
  end.

(** ** Constants of the source *)

Definition BATCH_SAVE_EVERY : Z := 20.
Definition MAX_RETRIES : Z := 2.

(** ** [extract_image_url] *)

Definition dquote : ascii := ascii_of_nat 34.
Definition squote : ascii := ascii_of_nat 39.

Definition quote : Re.re := Re.Cls false [Re.IChr dquote; Re.IChr squote].
Definition not_quote : Re.re := Re.Cls true [Re.IChr dquote; Re.IChr squote].
Definition not_quote_space : Re.re :=
  Re.Cls true [Re.IChr dquote; Re.IChr squote; Re.ISpace].
Definition spaces1 : Re.re := Re.Plus (Re.Cls false [Re.ISpace]).
Definition image_ext : Re.re :=
  Re.Alt (Re.lit "jpg") (Re.Alt (Re.lit "png") (Re.lit "webp")).

Definition seqs (rs : list Re.re) : Re.re := foldr Re.Seq Re.Eps rs.

(** The [og:image] meta tag, [<meta\s+property=Q og:image Q\s+content=Q(N+)Q]
    where [Q] is the class of the two quote characters and [N] its
    complement. *)
Definition og_image_re : Re.re :=
  seqs [ Re.lit "<meta"; spaces1; Re.lit "property="; quote;
         Re.lit "og:image"; quote; spaces1; Re.lit "content="; quote;
         Re.Group (Re.Plus not_quote); quote ].

(** Group 1 is the whole pattern: the [perfume_social] prefix, [W+], a dot,
    one of [jpg], [png], [webp], then [W*], where [W] is any character but
    a quote or a space. *)
Definition perfume_social_re : Re.re :=
  Re.Group (seqs [ Re.lit "https://media.parfumo.com/perfume_social/";
                   Re.Plus not_quote_space; Re.Chr "."; image_ext;
                   Re.Star not_quote_space ]).

(** The same with the [perfumes] prefix. *)
Definition perfumes_re : Re.re :=
  Re.Group (seqs [ Re.lit "https://media.parfumo.com/perfumes/";
                   Re.Plus not_quote_space; Re.Chr "."; image_ext;
                   Re.Star not_quote_space ]).

(** The [perfume_bottle] prefix, [W+], a dot and the extension; nothing
    after it. *)
Definition perfume_bottle_re : Re.re :=
  Re.Group (seqs [ Re.lit "https://images.parfumo.de/perfume_bottle/";
                   Re.Plus not_quote_space; Re.Chr "."; image_ext ]).

(** The [for pattern in [...]] loop: the first pattern that matches returns
    its group 1. *)
Fixpoint first_match (patterns : list Re.re) (html : string) : option string :=
  match patterns with
  | [] => None
  | p :: ps =>
      match Re.search p html with
      | Some g => g
      | None => first_match ps html
      end
  end.

Definition extract_image_url (html : string) : outcome (option string) :=
  let fallback :=
    Returns (first_match [perfume_social_re; perfumes_re; perfume_bottle_re] html) in
  match Re.search og_image_re html with
  | Some (Some url) =>
      if negb (contains "404" url) && contains "parfumo" url
      then Returns (Some url)
      else fallback
  | Some None => Raises (Exception "TypeError")
  | None => fallback
  end.

(** ** The outside world *)

(** The [json] module: [json.dump] of a value gives the text of a file,
    [json.load] of a text gives a value or raises [JSONDecodeError]
    ([None]). *)
Class JsonCodec : Type := {
  text : Type;
  json_dumps : pyval → text;
  json_loads : text → option pyval;
}.

Inductive sleep_kind : Type :=
  | BaseDelay             (* BASE_DELAY + random.uniform(0.5, 2.5) *)
  | Backoff (attempt : Z) (* (2 ** attempt) * 10 + random.uniform(2, 8) *)
  | Cooldown              (* 60 + random.uniform(0, 30) *)
  | SessionPause.         (* 3 *)

Inductive event : Type :=
  | Attempt (url : string) (attempt : Z) (* the request of [fetch_image_url] *)
  | Warmup                               (* the request for the home page *)
  | Sleep (k : sleep_kind)
  | Flush (d : gmap string pyval).       (* [json.dump(results, f)] *)

(** What a run draws from outside: the answer of the network to a request,
    which may depend on everything that happened before it, and the
    permutation [random.shuffle] applies. *)
Record env : Type := {
  transport : list event → string → outcome string;
  shuffle : list string → list string;
}.

(** A record of the catalog; [None] is a missing or null address. *)
Record item : Type := { canonical_url : option string }.

Section Scraper.

Context {codec : JsonCodec}.

(** The codec reads back the dictionary it wrote. *)
Definition round_trips (d : gmap string pyval) : Prop :=
  json_loads (json_dumps (PDict d)) = Some (PDict d).

Record world : Type := {
  disk : option text;   (* content of OUTPUT_PATH; [None]: no such file *)
  trace : list event;
}.

Definition emit (e : event) (w : world) : world :=
  {| disk := disk w; trace := trace w ++ [e] |}.

(** [with open(OUTPUT_PATH, 'w') as f: json.dump(results, f)] *)
Definition flush (results : gmap string pyval) (w : world) : world :=
  {| disk := Some (json_dumps (PDict results));
     trace := trace w ++ [Flush results] |}.

(** *** [fetch_image_url] *)

Section Fetcher.

(** The extraction step is a parameter here, so that the statements
    about the fetcher hold whatever it returns or raises. *)
Variable extract : string → outcome (option string).
Variable E : env.

(** The [try] block: request, read, decode, extract. *)
Definition try_fetch (url : string) (w : world) : outcome (option string) :=
  match transport E (trace w) url with
  | Returns html => extract html
  | Raises e => Raises e
  end.

(** [e.code == 429 or e.code == 403] *)
Definition blocked (code : Z) : bool := (code =? 429) || (code =? 403).

(** [n] bounds the depth of the recursion; [fetch_image_url_eq] shows
    that the bound [fetch_image_url] gives is never reached. *)
Fixpoint fetch_from (n : nat) (url : string) (attempt : Z) (w : world)
    : outcome (option string) * world :=
  let w1 := emit (Attempt url attempt) w in
  match try_fetch url w with
  | Returns img => (Returns img, w1)
  | Raises (HTTPError code) =>
      if blocked code && (attempt <? MAX_RETRIES) then
        match n with
        | S n' =>
            fetch_from n' url (attempt + 1) (emit (Sleep (Backoff attempt)) w1)
        | O => (Returns None, w1)
        end
      else (Returns None, w1)
  | Raises (Exception _) => (Returns None, w1)
  end.

Definition fetch_image_url (url : string) (attempt : Z) (w : world)
    : outcome (option string) * world :=
  fetch_from (Z.to_nat (MAX_RETRIES - attempt)) url attempt w.

End Fetcher.

(** *** [main] *)

Definition homepage : string := "https://www.parfumo.com/".

(** The set of addresses of the catalog. *)
Definition catalog_urls (data : list item) : gset string :=
  foldl (λ urls it,
           if truthy (canonical_url it)
           then match canonical_url it with
                | Some u => urls ∪ {[u]}
                | None => urls
                end
           else urls) ∅ data.

(** [{k: v for k, v in raw.items() if v is not None}] *)
Definition resolved_subset (raw : gmap string pyval) : gmap string pyval :=
  filter (λ kv, is_none kv.2 = false) raw.

(** The prior store: [existing] after lines 91-96. *)
Definition load_existing (d : option text) : outcome (gmap string pyval) :=
  match d with
  | None => Returns ∅
  | Some txt =>
      match json_loads txt with
      | None => Raises (Exception "JSONDecodeError")
      | Some (PDict raw) => Returns (resolved_subset raw)
      | Some _ => Raises (Exception "AttributeError")
      end
  end.

(** [to_scrape] after the shuffle. *)
Definition to_scrape (E : env) (urls : gset string)
    (existing : gmap string pyval) : list string :=
  shuffle E (filter (λ u, existing !! u = None) (elements urls)).

(** The session warm-up; whatever it raises is ignored. *)
Definition warm_up (E : env) (w : world) : world :=
  match transport E (trace w) homepage with
  | Returns _ => emit (Sleep SessionPause) (emit Warmup w)
  | Raises _ => emit Warmup w
  end.

(** The local variables of the loop. *)
Record locals : Type := {
  results : gmap string pyval;
  completed : Z;
  found : Z;
  consecutive_fails : Z;
}.

Definition init_locals (existing : gmap string pyval) : locals :=
  {| results := existing;
     completed := 0;
     found := Z.of_nat (size existing);
     consecutive_fails := 0 |}.

(** One iteration of [for url in to_scrape]. *)
Definition iteration (E : env) (url : string) (st : locals) (w : world)
    : outcome locals * world :=
  let w1 := emit (Sleep BaseDelay) w in
  match fetch_image_url extract_image_url E url 0 w1 with
  | (Raises e, w2) => (Raises e, w2)
  | (Returns img, w2) =>
      let results' := <[url := py_of_img img]> (results st) in
      let completed' := completed st + 1 in
      let '(found', fails', w3) :=
        if truthy img then (found st + 1, 0, w2)
        else
          let fails := consecutive_fails st + 1 in
          if 5 <=? fails then (found st, 0, emit (Sleep Cooldown) w2)
          else (found st, fails, w2) in
      let w4 :=
        if completed' mod BATCH_SAVE_EVERY =? 0
        then flush results' w3 else w3 in
      (Returns {| results := results'; completed := completed';
                  found := found'; consecutive_fails := fails' |}, w4)
  end.

Fixpoint loop (E : env) (urls : list string) (st : locals) (w : world)
    : outcome locals * world :=
  match urls with
  | [] => (Returns st, w)
  | url :: rest =>
      match iteration E url st w with
      | (Returns st', w') => loop E rest st' w'
      | (Raises e, w') => (Raises e, w')
      end
  end.

(** A run of the program on a parsed catalog, from the content of the
    output file. *)
Definition main (E : env) (data : list item) (d : option text)
    : outcome unit * world :=
  let w0 := {| disk := d; trace := [] |} in
  let urls := catalog_urls data in
  match load_existing d with
  | Raises e => (Raises e, w0)
  | Returns existing =>
      let pending := to_scrape E urls existing in
      match pending with
      | [] => (Returns (), w0)
      | _ :: _ =>
          match loop E pending (init_locals existing) (warm_up E w0) with
          | (Raises e, w) => (Raises e, w)
          | (Returns st, w) => (Returns (), flush (results st) w)
          end
      end
  end.

(** *** Vocabulary of the statements *)

(** The events of [w'] that came after [w]. *)
Definition since (w w' : world) : list event :=
  drop (length (trace w)) (trace w').

Definition is_attempt (e : event) : bool :=
  match e with Attempt _ _ => true | _ => false end.

Definition is_cooldown (e : event) : bool :=
  match e with Sleep Cooldown => true | _ => false end.

Definition attempts (evs : list event) : nat :=
  length (List.filter is_attempt evs).

Definition cooldowns (evs : list event) : nat :=
  length (List.filter is_cooldown evs).

(** The file [d] holds a dictionary that maps [t] to [v]. *)
Definition stored (d : option text) (t : string) (v : pyval) : Prop :=
  ∃ txt raw, d = Some txt ∧ json_loads txt = Some (PDict raw) ∧ raw !! t = Some v.

(** Resume idempotence as the specification words it: after a run from the
    file [d], a second run on the same catalog has nothing to scrape and
    makes no attempt. *)
Definition resume_idempotent (E : env) (data : list item) (d : option text) : Prop :=
  ∀ w1, main E data d = (Returns (), w1) →
    (∃ existing2, load_existing (disk w1) = Returns existing2
                  ∧ to_scrape E (catalog_urls data) existing2 = [])
    ∧ attempts (trace (main E data (disk w1)).2) = 0%nat.

(** [random.shuffle] permutes its argument. *)
Definition shuffles (E : env) : Prop := ∀ l, shuffle E l ≡ₚ l.

(** What an event of a fetch of [url] can be. *)
Definition fetch_event (url : string) (e : event) : Prop :=
  match e with
  | Attempt u _ => u = url
  | Sleep (Backoff _) => True
  | _ => False
  end.

(** What an event of the iteration for [url] can be, [r] being the mapping
    after it. *)
Definition iter_event (url : string) (r : gmap string pyval) (e : event) : Prop :=
  match e with
  | Sleep _ => True
  | Attempt u _ => u = url
  | Flush d => d = r
  | Warmup => False
  end.

(** What an event of the loop over [urls] can be, [r0] being the mapping
    before it. *)
Definition loop_event (urls : list string) (r0 : gmap string pyval) (e : event) : Prop :=
  match e with
  | Sleep _ => True
  | Attempt u _ => u ∈ urls
  | Flush d => ∀ k, k ∉ urls → d !! k = r0 !! k
  | Warmup => False
  end.

End Scraper.

(** ** A codec to run the model with

    A text is identified with the value it denotes; [None] is a text that
    is not JSON. *)
Definition value_codec : JsonCodec :=
  {| text := option pyval; json_dumps := Some; json_loads := λ t, t |}.

(** ** The [json] module of the standard library

    [json.dump(results, f)] and [json.load(f)] as the source calls them,
    with the default arguments: [ensure_ascii] is on, the separators are a
    comma and a colon each followed by a space, the decoder is strict,
    [NaN] and the infinities are read and written.  The definitions follow
    [json.encoder] and [json.decoder]; each names the one it stands for.
    - The text of a float and the float of a literal are parameters
      ([float_repr], [float_of_literal]).
    - An escape above [00ff] denotes a character outside the alphabet of
      the model: the decoder has no value for such a text.
    - The recursion limit of the interpreter and its limit on the digits of
      an integer literal are not modelled. *)

Module Json.

Definition backslash : ascii := ascii_of_nat 92.

Definition hex_digit (n : N) : ascii :=
  ascii_of_N (if (n <? 10)%N then 48 + n else 87 + n).

Definition hex_value (c : ascii) : option N :=
  let n := N_of_ascii c in
  if ((48 <=? n) && (n <=? 57))%N then Some (n - 48)%N
  else if ((97 <=? n) && (n <=? 102))%N then Some (n - 87)%N
  else if ((65 <=? n) && (n <=? 70))%N then Some (n - 55)%N
  else None.

(** [ESCAPE_ASCII] and [ESCAPE_DCT] of [json.encoder]: the quote, the
    backslash and every character outside the printable ASCII range are
    escaped, with the short escape where there is one and four lower-case
    hexadecimal digits otherwise. *)
Definition escape_char (c : ascii) : list ascii :=
  let n := N_of_ascii c in
  if Ascii.eqb c dquote then [backslash; dquote]
  else if Ascii.eqb c backslash then [backslash; backslash]
  else if (n =? 10)%N then [backslash; "n"%char]
  else if (n =? 13)%N then [backslash; "r"%char]
  else if (n =? 9)%N then [backslash; "t"%char]
  else if (n =? 12)%N then [backslash; "f"%char]
  else if (n =? 8)%N then [backslash; "b"%char]
  else if ((32 <=? n) && (n <=? 126))%N then [c]
  else [backslash; "u"%char; "0"%char; "0"%char;
        hex_digit (n / 16); hex_digit (n mod 16)].

Definition encode_string (s : string) : list ascii :=
  dquote :: flat_map escape_char (list_ascii_of_string s) ++ [dquote].

Fixpoint join (sep : list ascii) (parts : list (list ascii)) : list ascii :=
  match parts with
  | [] => []
  | [p] => p
  | p :: ps => p ++ sep ++ join sep ps
  end.

Definition item_separator : list ascii := list_ascii_of_string ", ".
Definition key_separator : list ascii := list_ascii_of_string ": ".

(** The text of a key with the text of its value. *)
Definition encode_member (kv : string * list ascii) : list ascii :=
  encode_string kv.1 ++ key_separator ++ kv.2.

Section Codec.

Variable float_repr : Z → list ascii.
Variable float_of_literal : list ascii → Z.

(** [json.dumps]: [JSONEncoder.iterencode] with its defaults. *)
Fixpoint encode (v : pyval) : list ascii :=
  match v with
  | PNone => list_ascii_of_string "null"
  | PBool true => list_ascii_of_string "true"
  | PBool false => list_ascii_of_string "false"
  | PInt n => list_ascii_of_string (NilZero.string_of_int (Z.to_int n))
  | PFloat bits => float_repr bits
  | PStr s => encode_string s
  | PList l =>
      "["%char :: join item_separator (map encode l) ++ ["]"%char]
  | PDict d =>
      "{"%char
        :: join item_separator (map encode_member (map_to_list (encode <$> d)))
        ++ ["}"%char]
  end.

(** The text of an object whose members are written in the order of [L];
    [encode] writes the members of a mapping in the order of
    [map_to_list], Python in the order of insertion. *)
Definition object_text (L : list (string * pyval)) : list ascii :=
  "{"%char
    :: join item_separator (map encode_member (prod_map id encode <$> L))
    ++ ["}"%char].

(** The members of [object_text L] after the opening quote of the first
    key, up to the closing brace. *)
Fixpoint members_text (L : list (string * pyval)) : list ascii :=
  match L with
  | [] => []
  | (k, v) :: L' =>
      flat_map escape_char (list_ascii_of_string k)
      ++ dquote :: key_separator ++ encode v
      ++ match L' with
         | [] => []
         | _ :: _ => item_separator ++ dquote :: members_text L'
         end
  end.

(** [WHITESPACE] of [json.decoder] *)
Definition is_ws (c : ascii) : bool :=
  let n := N_of_ascii c in
  ((n =? 32) || (n =? 9) || (n =? 10) || (n =? 13))%N.

Fixpoint skip_ws (s : list ascii) : list ascii :=
  match s with
  | c :: r => if is_ws c then skip_ws r else s
  | [] => []
  end.

(** [BACKSLASH] of [json.decoder] *)
Definition unescape (e : ascii) : option ascii :=
  if Ascii.eqb e dquote then Some dquote
  else if Ascii.eqb e backslash then Some backslash
  else if Ascii.eqb e "/" then Some "/"%char
  else if Ascii.eqb e "b" then Some (ascii_of_nat 8)
  else if Ascii.eqb e "f" then Some (ascii_of_nat 12)
  else if Ascii.eqb e "n" then Some (ascii_of_nat 10)
  else if Ascii.eqb e "r" then Some (ascii_of_nat 13)
  else if Ascii.eqb e "t" then Some (ascii_of_nat 9)
  else None.

Definition hex4 (a b c d : ascii) : option N :=
  match hex_value a, hex_value b, hex_value c, hex_value d with
  | Some x, Some y, Some z, Some t => Some (((x * 16 + y) * 16 + z) * 16 + t)%N
  | _, _, _, _ => None
  end.

(** [scanstring], strict, from the character after the opening quote: the
    characters of the string and the text after the closing quote. *)
Fixpoint scanstring (s : list ascii) : option (list ascii * list ascii) :=
  match s with
  | [] => None
  | c :: r =>
      if Ascii.eqb c dquote then Some ([], r)
      else if Ascii.eqb c backslash then
        match r with
        | [] => None
        | e :: r1 =>
            if Ascii.eqb e "u" then
              match r1 with
              | a :: b :: c2 :: d :: r2 =>
                  match hex4 a b c2 d with
                  | Some n =>
                      if (n <? 256)%N then
                        match scanstring r2 with
                        | Some (t, rest) => Some (ascii_of_N n :: t, rest)
                        | None => None
                        end
                      else None
                  | None => None
                  end
              | _ => None
              end
            else
              match unescape e with
              | Some ch =>
                  match scanstring r1 with
                  | Some (t, rest) => Some (ch :: t, rest)
                  | None => None
                  end
              | None => None
              end
        end
      else if (N_of_ascii c <? 32)%N then None
      else
        match scanstring r with
        | Some (t, rest) => Some (c :: t, rest)
        | None => None
        end
  end.

Fixpoint strip_prefix (p s : list ascii) : option (list ascii) :=
  match p, s with
  | [], _ => Some s
  | a :: p', b :: s' => if Ascii.eqb a b then strip_prefix p' s' else None
  | _ :: _, [] => None
  end.

Definition is_digit (c : ascii) : bool :=
  let n := N_of_ascii c in ((48 <=? n) && (n <=? 57))%N.

Fixpoint span_digits (s : list ascii) : list ascii * list ascii :=
  match s with
  | c :: r =>
      if is_digit c then let '(ds, rest) := span_digits r in (c :: ds, rest)
      else ([], s)
  | [] => ([], [])
  end.

Definition digits_value (ds : list ascii) : Z :=
  fold_left (λ acc c, 10 * acc + (Z.of_N (N_of_ascii c) - 48)) ds 0.

(** [NUMBER_RE]: the integer part, then a fraction and an exponent when
    they are there in full. *)
Definition scan_number (s : list ascii) : option (pyval * list ascii) :=
  let '(sign, s1) :=
    match s with
    | c :: r => if Ascii.eqb c "-" then (["-"%char], r) else ([], s)
    | [] => ([], s)
    end in
  let int_part :=
    match s1 with
    | c :: r =>
        if Ascii.eqb c "0" then Some (["0"%char], r)
        else if is_digit c then Some (span_digits s1)
        else None
    | [] => None
    end in
  match int_part with
  | None => None
  | Some (ds, s2) =>
      let '(frac, s3) :=
        match s2 with
        | c :: r =>
            if Ascii.eqb c "." then
              match span_digits r with
              | ([], _) => ([], s2)
              | (fs, rest) => (c :: fs, rest)
              end
            else ([], s2)
        | [] => ([], s2)
        end in
      let '(exp, s4) :=
        match s3 with
        | c :: r =>
            if Ascii.eqb c "e" || Ascii.eqb c "E" then
              let '(sg, r') :=
                match r with
                | x :: r0 =>
                    if Ascii.eqb x "-" || Ascii.eqb x "+" then ([x], r0)
                    else ([], r)
                | [] => ([], r)
                end in
              match span_digits r' with
              | ([], _) => ([], s3)
              | (es, rest) => (c :: sg ++ es, rest)
              end
            else ([], s3)
        | [] => ([], s3)
        end in
      match frac, exp with
      | [], [] =>
          Some (PInt (match sign with [] => digits_value ds
                      | _ => - digits_value ds end), s4)
      | _, _ => Some (PFloat (float_of_literal (sign ++ ds ++ frac ++ exp)), s4)
      end
  end.

(** [JSONObject]: the members of an object, from the character after the
    opening quote of a key; [n] bounds their number.  A key that comes
    again replaces the earlier one. *)
Fixpoint parse_members (value : list ascii → option (pyval * list ascii))
    (n : nat) (acc : gmap string pyval) (s : list ascii)
    : option (gmap string pyval * list ascii) :=
  match n with
  | O => None
  | S n' =>
      match scanstring s with
      | None => None
      | Some (k, s1) =>
          match skip_ws s1 with
          | c :: s2 =>
              if Ascii.eqb c ":" then
                match value (skip_ws s2) with
                | None => None
                | Some (v, s3) =>
                    let acc' := <[string_of_list_ascii k := v]> acc in
                    match skip_ws s3 with
                    | c' :: s4 =>
                        if Ascii.eqb c' "}" then Some (acc', s4)
                        else if Ascii.eqb c' "," then
                          match skip_ws s4 with
                          | q :: s5 =>
                              if Ascii.eqb q dquote
                              then parse_members value n' acc' s5
                              else None
                          | [] => None
                          end
                        else None
                    | [] => None
                    end
                end
              else None
          | [] => None
          end
      end
  end.

(** [JSONArray]: the elements of an array, from its first value. *)
Fixpoint parse_elements (value : list ascii → option (pyval * list ascii))
    (n : nat) (acc : list pyval) (s : list ascii)
    : option (list pyval * list ascii) :=
  match n with
  | O => None
  | S n' =>
      match value s with
      | None => None
      | Some (v, s1) =>
          match skip_ws s1 with
          | c :: s2 =>
              if Ascii.eqb c "]" then Some (acc ++ [v], s2)
              else if Ascii.eqb c ","
              then parse_elements value n' (acc ++ [v]) (skip_ws s2)
              else None
          | [] => None
          end
      end
  end.

(** [scan_once]; [fuel] bounds the nesting and the number of members and
    elements. *)
Fixpoint parse_value (fuel : nat) (s : list ascii)
    : option (pyval * list ascii) :=
  match fuel with
  | O => None
  | S fuel' =>
      match s with
      | [] => None
      | c :: r =>
          if Ascii.eqb c dquote then
            match scanstring r with
            | Some (t, rest) => Some (PStr (string_of_list_ascii t), rest)
            | None => None
            end
          else if Ascii.eqb c "{" then
            match skip_ws r with
            | q :: r1 =>
                if Ascii.eqb q "}" then Some (PDict ∅, r1)
                else if Ascii.eqb q dquote then
                  match parse_members (parse_value fuel') fuel' ∅ r1 with
                  | Some (d, rest) => Some (PDict d, rest)
                  | None => None
                  end
                else None
            | [] => None
            end
          else if Ascii.eqb c "[" then
            match skip_ws r with
            | q :: r1 =>
                if Ascii.eqb q "]" then Some (PList [], r1)
                else
                  match parse_elements (parse_value fuel') fuel' [] (q :: r1) with
                  | Some (l, rest) => Some (PList l, rest)
                  | None => None
                  end
            | [] => None
            end
          else
            match strip_prefix (list_ascii_of_string "null") s with
            | Some rest => Some (PNone, rest)
            | None =>
            match strip_prefix (list_ascii_of_string "true") s with
            | Some rest => Some (PBool true, rest)
            | None =>
            match strip_prefix (list_ascii_of_string "false") s with
            | Some rest => Some (PBool false, rest)
            | None =>
            match scan_number s with
            | Some r => Some r
            | None =>
            match strip_prefix (list_ascii_of_string "NaN") s with
            | Some rest =>
                Some (PFloat (float_of_literal (list_ascii_of_string "NaN")), rest)
            | None =>
            match strip_prefix (list_ascii_of_string "Infinity") s with
            | Some rest =>
                Some (PFloat (float_of_literal (list_ascii_of_string "Infinity")),
                      rest)
            | None =>
            match strip_prefix (list_ascii_of_string "-Infinity") s with
            | Some rest =>
                Some (PFloat (float_of_literal (list_ascii_of_string "-Infinity")),
                      rest)
            | None => None
            end end end end end end end
      end
  end.

(** [json.loads]: one value between white space, and nothing after it.
    The fuel is the length of the text. *)
Definition decode (s : list ascii) : option pyval :=
  let s1 := skip_ws s in
  match parse_value (S (length s1)) s1 with
  | Some (v, rest) =>
      match skip_ws rest with
      | [] => Some v
      | _ :: _ => None
      end
  | None => None
  end.

End Codec.

End Json.

(** The codec of the program: the file is a text. *)
Definition python_json (float_repr : Z → list ascii)
    (float_of_literal : list ascii → Z) : JsonCodec :=
  {| text := string;
     json_dumps := λ v, string_of_list_ascii (Json.encode float_repr v);
     json_loads :=
       λ t, Json.decode float_of_literal (list_ascii_of_string t) |}.

(** An instance for values that hold no float. *)
Definition plain_json : JsonCodec :=
  python_json (λ _, list_ascii_of_string "0.0") (λ _, 0).

(** A file that holds an empty array. *)
Definition array_text : @text plain_json := "[]"%string.

(** What the program stores for a target: null or a string. *)
Definition str_or_null (v : pyval) : Prop := v = PNone ∨ ∃ s, v = PStr s.

(** ** Inputs to run the model on *)

Definition url_a : string := "http://x/a".
Definition url_b : string := "http://x/b".
Definition ref_a : string := "https://media.parfumo.com/perfumes/a.jpg".
Definition page_a : string :=
  "<img src='https://media.parfumo.com/perfumes/a.jpg'>".

Definition catalog_ab : list item :=
  [ {| canonical_url := Some url_a |}; {| canonical_url := Some url_b |} ].

(** A store that resolved [url_a] and failed on [url_b]. *)
Definition store_ab : gmap string pyval :=
  <[url_a := PStr ref_a]> (<[url_b := PNone]> ∅).

(** A network that serves the page of [url_a] and nothing else. *)
Definition only_a : env :=
  {| transport := λ _ u, if String.eqb u url_a then Returns page_a
                         else Raises (Exception "URLError");
     shuffle := λ l, l |}.

(** A network that answers every request with HTTP 429. *)
Definition rate_limited : env :=
  {| transport := λ _ _, Raises (HTTPError 429); shuffle := λ l, l |}.

(** No network at all. *)
Definition offline : env :=
  {| transport := λ _ _, Raises (Exception "URLError"); shuffle := λ l, l |}.

(** A text that is not JSON, and the text of [store_ab]. *)
Definition garbage : @text value_codec := None.
Definition text_ab : @text value_codec := json_dumps (PDict store_ab).

(** The start of a process when there is no output file. *)
Definition fresh : @world value_codec := {| disk := None; trace := [] |}.

(** [n] distinct addresses. *)
Definition targets (n : nat) : list string :=
  (λ i, String (ascii_of_nat (97 + i)) EmptyString) <$> seq 0 n.

(** The world the run of section 8.6 of the specification leaves. *)
Definition after_first_run : @world value_codec :=
  (main (codec := value_codec) only_a catalog_ab None).2.

(** ** Vocabulary of the further properties *)

(** The characters a match of [r] can consume. *)
Fixpoint may_consume (r : Re.re) (a : ascii) : bool :=
  match r with
  | Re.Eps => false
  | Re.Chr c => Ascii.eqb a c
  | Re.Cls neg items => Re.cls_has neg items a
  | Re.Seq r1 r2 | Re.Alt r1 r2 => may_consume r1 a || may_consume r2 a
  | Re.Star r1 | Re.Group r1 => may_consume r1 a
  end.

(** Every match of [r] closes the group. *)
Fixpoint captures (r : Re.re) : bool :=
  match r with
  | Re.Group _ => true
  | Re.Seq r1 r2 => captures r1 || captures r2
  | Re.Alt r1 r2 => captures r1 && captures r2
  | _ => false
  end.

(** The characters of every group of [r] satisfy [Q]. *)
Fixpoint groups_in (Q : ascii → Prop) (r : Re.re) : Prop :=
  match r with
  | Re.Group r1 => (∀ a, may_consume r1 a = true → Q a) ∧ groups_in Q r1
  | Re.Seq r1 r2 | Re.Alt r1 r2 => groups_in Q r1 ∧ groups_in Q r2
  | Re.Star r1 => groups_in Q r1
  | _ => True
  end.

Definition is_quote (a : ascii) : bool := Ascii.eqb a dquote || Ascii.eqb a squote.

(** The group, once closed, is a piece of the text [whole] made of [Q]
    characters. *)
Definition good (whole : list ascii) (Q : ascii → Prop) (g : option string)
    : Prop :=
  ∀ t, g = Some t →
    (∃ a b, whole = a ++ list_ascii_of_string t ++ b)
    ∧ Forall Q (list_ascii_of_string t).

(** Neither quote character. *)
Definition no_quote (a : ascii) : Prop := is_quote a = false.

Definition social_prefix : string := "https://media.parfumo.com/perfume_social/".
Definition perfumes_prefix : string := "https://media.parfumo.com/perfumes/".
Definition bottle_prefix : string := "https://images.parfumo.de/perfume_bottle/".

(** The trace of a fetch that made [n] retries. *)
Fixpoint attempt_trace (url : string) (attempt : Z) (n : nat) : list event :=
  Attempt url attempt ::
  match n with
  | O => []
  | S n' => Sleep (Backoff attempt) :: attempt_trace url (attempt + 1) n'
  end.

(** Every attempt comes right after a sleep; [slept] tells whether the
    event before the list was one. *)
Fixpoint paced (slept : bool) (evs : list event) : bool :=
  match evs with
  | [] => true
  | Attempt _ _ :: rest => slept && paced false rest
  | Sleep _ :: rest => paced true rest
  | _ :: rest => paced false rest
  end.

(** The first attempts for [u] among the events. *)
Definition is_first_attempt (u : string) (e : event) : bool :=
  match e with
  | Attempt v a => String.eqb v u && (a =? 0)
  | _ => false
  end.

Definition first_attempts (u : string) (evs : list event) : nat :=
  length (List.filter (is_first_attempt u) evs).

Section IterationSpec.
Context {codec : JsonCodec}.

(** The local variables after an iteration whose fetch returned [img]. *)
Definition after_iteration (url : string) (img : option string) (st : locals)
    : locals :=
  {| results := <[url := py_of_img img]> (results st);
     completed := completed st + 1;
     found := if truthy img then found st + 1 else found st;
     consecutive_fails :=
       if truthy img then 0
       else if 5 <=? consecutive_fails st + 1 then 0
            else consecutive_fails st + 1 |}.

Definition cooled (img : option string) (st : locals) : bool :=
  negb (truthy img) && (5 <=? consecutive_fails st + 1).

Definition saved (st : locals) : bool :=
  (completed st + 1) mod BATCH_SAVE_EVERY =? 0.

(** What an iteration does after its fetch. *)
Definition iteration_tail (url : string) (img : option string) (st : locals)
    : list event :=
  (if cooled img st then [Sleep Cooldown] else [])
  ++ (if saved st then [Flush (results (after_iteration url img st))] else []).

End IterationSpec.

(** * Properties *)

(** ** The extractor never returns the empty string *)

Module ReFacts.
Import Re.

Lemma rmatch_consumes {R : Type} (r : re) :
  ∀ (s : list ascii) g (k : list ascii → option string → option R) x,
    rmatch r s g k = Some x →
    ∃ s' g', k s' g' = Some x ∧ (length s' + min_len r ≤ length s)%nat.
Proof.
  induction r as [|c|neg items|r1 IH1 r2 IH2|r1 IH1 r2 IH2|r1 IH1|r1 IH1];
    intros s g k x Hm; simpl in Hm.
  - exists s, g. simpl. split; [done | lia].
  - destruct s as [|a s']; [done|].
    destruct (Ascii.eqb a c); [|done].
    exists s', g. simpl. split; [done | lia].
  - destruct s as [|a s']; [done|].
    destruct (cls_has neg items a); [|done].
    exists s', g. simpl. split; [done | lia].
  - apply IH1 in Hm as (s1 & g1 & Hm & Hl1).
    apply IH2 in Hm as (s2 & g2 & Hm & Hl2).
    exists s2, g2. simpl. split; [done | lia].
  - destruct (rmatch r1 s g k) as [y|] eqn:H1.
    + injection Hm as ->. apply IH1 in H1 as (s1 & g1 & Hk & Hl).
      exists s1, g1. simpl. split; [done | lia].
    + apply IH2 in Hm as (s2 & g2 & Hk & Hl).
      exists s2, g2. simpl. split; [done | lia].
  - revert Hm. generalize (length s) at 1. intros n. revert s g.
    induction n as [|n IHn]; intros s g Hm; simpl.
    + exists s, g. split; [done | lia].
    + match type of Hm with
      | match ?m with _ => _ end = _ => destruct m as [y|] eqn:H1
      end.
      * injection Hm as ->. apply IH1 in H1 as (s1 & g1 & Hk & Hl).
        destruct (length s1 <? length s)%nat eqn:Hlt; [|done].
        apply Nat.ltb_lt in Hlt.
        apply IHn in Hk as (s2 & g2 & Hk & Hl2).
        exists s2, g2. split; [done | lia].
      * exists s, g. split; [done | lia].
  - apply IH1 in Hm as (s1 & g1 & Hk & Hl).
    eexists _, _. simpl. split; [exact Hk | lia].
Qed.

(** A pattern that is one group and cannot match the empty string
    captures a non-empty text. *)
Lemma search_group_nonempty (r : re) (s : list ascii) (g : option string) :
  (0 < min_len r)%nat →
  search_from (Group r) s = Some g →
  ∃ t, g = Some t ∧ t ≠ EmptyString.
Proof.
  intros Hpos. revert g. induction s as [|a s IH]; simpl; intros g Hs.
  - match type of Hs with
    | match ?m with _ => _ end = _ => destruct m as [y|] eqn:H1
    end; [|done].
    apply rmatch_consumes in H1 as (s1 & g1 & Hk & Hl). simpl in Hl. lia.
  - match type of Hs with
    | match ?m with _ => _ end = _ => destruct m as [y|] eqn:H1
    end; [|by apply IH].
    injection Hs as ->.
    apply rmatch_consumes in H1 as (s1 & g1 & Hk & Hl).
    injection Hk as <-. eexists. split; [done|].
    simpl in Hl |- *.
    destruct (S (length s) - length s1)%nat eqn:Hd; [lia | discriminate].
Qed.

End ReFacts.

Lemma contains_nonempty (needle hay : string) :
  needle ≠ EmptyString → contains needle hay = true → hay ≠ EmptyString.
Proof.
  intros Hn Hc ->. simpl in Hc. destruct needle; [done | discriminate].
Qed.

Lemma first_match_nonempty (patterns : list Re.re) (html u : string) :
  Forall (λ p, ∃ r, p = Re.Group r ∧ (0 < Re.min_len r)%nat) patterns →
  first_match patterns html = Some u → u ≠ EmptyString.
Proof.
  induction 1 as [|p ps (r & -> & Hpos) _ IH]; simpl; [done|].
  destruct (Re.search (Re.Group r) html) as [g|] eqn:Hs; [|exact IH].
  intros ->.
  apply ReFacts.search_group_nonempty in Hs as (t & [= <-] & Ht); done.
Qed.

Lemma extract_image_url_nonempty (html u : string) :
  extract_image_url html = Returns (Some u) → u ≠ EmptyString.
Proof.
  assert (Hfall : Returns (first_match
            [perfume_social_re; perfumes_re; perfume_bottle_re] html)
          = Returns (Some u) → u ≠ EmptyString).
  { intros [= Hf].
    apply (first_match_nonempty
             [perfume_social_re; perfumes_re; perfume_bottle_re] html);
      [|exact Hf].
    repeat constructor; eexists; (split; [reflexivity | vm_compute; lia]). }
  unfold extract_image_url.
  destruct (Re.search og_image_re html) as [[url|]|]; [| done | exact Hfall].
  destruct (negb (contains "404" url) && contains "parfumo" url) eqn:Hok;
    [|exact Hfall].
  intros [= ->]. apply andb_true_iff in Hok as [_ Hp].
  by eapply contains_nonempty; [|exact Hp].
Qed.

(** ** The fetcher *)

Section FetcherFacts.

Context {codec : JsonCodec}.
Variable extract : string → outcome (option string).
Variable E : env.

Lemma since_app (w w' : world) (evs : list event) :
  trace w' = trace w ++ evs → since w w' = evs.
Proof. intros H. unfold since. rewrite H. apply drop_app_length. Qed.

Lemma since_emit (e : event) (w : world) : since w (emit e w) = [e].
Proof. by apply since_app. Qed.

(** The model obeys the recursive equation of the source: the depth bound
    of [fetch_from] plays no part. *)
Lemma fetch_image_url_eq (url : string) (attempt : Z) (w : world) :
  fetch_image_url extract E url attempt w =
    let w1 := emit (Attempt url attempt) w in
    match try_fetch extract E url w with
    | Returns img => (Returns img, w1)
    | Raises (HTTPError code) =>
        if blocked code && (attempt <? MAX_RETRIES)
        then fetch_image_url extract E url (attempt + 1)
               (emit (Sleep (Backoff attempt)) w1)
        else (Returns None, w1)
    | Raises (Exception _) => (Returns None, w1)
    end.
Proof.
  unfold fetch_image_url.
  destruct (Z.ltb_spec attempt MAX_RETRIES) as [Hlt|Hge].
  - replace (Z.to_nat (MAX_RETRIES - attempt))
      with (S (Z.to_nat (MAX_RETRIES - (attempt + 1)))) by lia.
    simpl. destruct (try_fetch extract E url w) as [img|[code|cls]]; try done.
    by rewrite (proj2 (Z.ltb_lt _ _) Hlt).
  - replace (Z.to_nat (MAX_RETRIES - attempt)) with O by lia.
    simpl. destruct (try_fetch extract E url w) as [img|[code|cls]]; try done.
    rewrite (proj2 (Z.ltb_ge _ _) Hge). by rewrite andb_false_r.
Qed.

(** A fetch returns; it leaves the file alone and adds the events of its
    attempts to the trace; what it returns, when not null, is what the
    extractor returned for a page the network delivered. *)
Lemma fetch_from_shape (n : nat) (url : string) :
  ∀ (attempt : Z) (w : world),
    ∃ img evs,
      fetch_from extract E n url attempt w
        = (Returns img, {| disk := disk w;
                           trace := trace w ++ Attempt url attempt :: evs |})
      ∧ Forall (fetch_event url) evs
      ∧ (img ≠ None →
         ∃ h html, transport E h url = Returns html ∧ extract html = Returns img).
Proof.
  induction n as [|n IH]; intros attempt w; simpl.
  - unfold try_fetch.
    destruct (transport E (trace w) url) as [html|e] eqn:Ht;
      [destruct (extract html) as [img|e] eqn:Hx|].
    + exists img, []. repeat split; [constructor | eauto].
    + exists None, []. destruct e as [code|cls];
        [destruct (blocked code && (attempt <? MAX_RETRIES))|];
        repeat split; done || constructor.
    + exists None, []. destruct e as [code|cls];
        [destruct (blocked code && (attempt <? MAX_RETRIES))|];
        repeat split; done || constructor.
  - assert (Hretry :
        ∃ img evs,
          fetch_from extract E n url (attempt + 1)
            (emit (Sleep (Backoff attempt)) (emit (Attempt url attempt) w))
          = (Returns img, {| disk := disk w;
                             trace := trace w ++ Attempt url attempt :: evs |})
          ∧ Forall (fetch_event url) evs
          ∧ (img ≠ None →
             ∃ h html, transport E h url = Returns html
                       ∧ extract html = Returns img)).
    { destruct (IH (attempt + 1)
                  (emit (Sleep (Backoff attempt)) (emit (Attempt url attempt) w)))
        as (img & evs & -> & Hevs & Himg).
      exists img, (Sleep (Backoff attempt) :: Attempt url (attempt + 1) :: evs).
      split; [|split; [|done]].
      - simpl. by rewrite <- !app_assoc.
      - by repeat constructor. }
    unfold try_fetch.
    destruct (transport E (trace w) url) as [html|e] eqn:Ht;
      [destruct (extract html) as [img|e] eqn:Hx|].
    + exists img, []. repeat split; [constructor | eauto].
    + destruct e as [code|cls];
        [destruct (blocked code && (attempt <? MAX_RETRIES)); [exact Hretry|]|];
        exists None, []; repeat split; done || constructor.
    + destruct e as [code|cls];
        [destruct (blocked code && (attempt <? MAX_RETRIES)); [exact Hretry|]|];
        exists None, []; repeat split; done || constructor.
Qed.

Lemma fetch_image_url_shape (url : string) (attempt : Z) (w : world) :
  ∃ img evs,
    fetch_image_url extract E url attempt w
      = (Returns img, {| disk := disk w;
                         trace := trace w ++ Attempt url attempt :: evs |})
    ∧ Forall (fetch_event url) evs
    ∧ (img ≠ None →
       ∃ h html, transport E h url = Returns html ∧ extract html = Returns img).
Proof. apply fetch_from_shape. Qed.

Lemma blocked_iff (code : Z) : blocked code = true ↔ code = 429 ∨ code = 403.
Proof. unfold blocked. rewrite orb_true_iff, !Z.eqb_eq. tauto. Qed.

(** Whether an error is retried is decidable. *)
Lemma classic_retry (e : exn) (attempt : Z) :
  (∃ code, e = HTTPError code ∧ (code = 429 ∨ code = 403) ∧ attempt < MAX_RETRIES)
  ∨ ¬ (∃ code, e = HTTPError code
               ∧ (code = 429 ∨ code = 403) ∧ attempt < MAX_RETRIES).
Proof.
  destruct e as [code|cls]; [|right; intros (c & [=] & _)].
  destruct (decide (code = 429 ∨ code = 403)) as [Hc|Hc];
    [|right; intros (c & [= <-] & ? & _); tauto].
  destruct (decide (attempt < MAX_RETRIES)) as [Hlt|Hge];
    [|right; intros (c & _ & _ & ?); lia].
  left. by exists code.
Qed.

Lemma fetch_retries (url : string) (attempt code : Z) (w : world) :
  try_fetch extract E url w = Raises (HTTPError code) →
  code = 429 ∨ code = 403 →
  attempt < MAX_RETRIES →
  fetch_image_url extract E url attempt w
  = fetch_image_url extract E url (attempt + 1)
      (emit (Sleep (Backoff attempt)) (emit (Attempt url attempt) w)).
Proof.
  intros Ht Hc Hlt. rewrite fetch_image_url_eq at 1. rewrite Ht. simpl.
  rewrite (proj2 (blocked_iff code) Hc).
  by rewrite (proj2 (Z.ltb_lt _ _) Hlt).
Qed.

Lemma fetch_gives_up (url : string) (attempt : Z) (w : world) (e : exn) :
  try_fetch extract E url w = Raises e →
  ¬ (∃ code, e = HTTPError code
             ∧ (code = 429 ∨ code = 403) ∧ attempt < MAX_RETRIES) →
  fetch_image_url extract E url attempt w
  = (Returns None, emit (Attempt url attempt) w).
Proof.
  intros Ht Hnot. rewrite fetch_image_url_eq. rewrite Ht. simpl.
  destruct e as [code|cls]; [|done].
  destruct (blocked code && (attempt <? MAX_RETRIES)) eqn:Hb; [|done].
  exfalso. apply Hnot. apply andb_true_iff in Hb as [Hc Hlt].
  exists code. by rewrite <- blocked_iff, <- Z.ltb_lt.
Qed.

End FetcherFacts.

(** ** The loop *)

Section OrchestratorFacts.

Context {codec : JsonCodec}.
Variable E : env.

Lemma cooldowns_app (l1 l2 : list event) :
  cooldowns (l1 ++ l2) = (cooldowns l1 + cooldowns l2)%nat.
Proof. unfold cooldowns. by rewrite List.filter_app, length_app. Qed.

Lemma cooldowns_fetch (url : string) (evs : list event) :
  Forall (fetch_event url) evs → cooldowns evs = 0%nat.
Proof.
  induction 1 as [|e evs He _ IH]; [done|].
  unfold cooldowns in *. simpl.
  destruct e as [u a| |[]|d]; simpl in *; done.
Qed.

Lemma fetch_event_iter (url : string) (r : gmap string pyval) (evs : list event) :
  Forall (fetch_event url) evs → Forall (iter_event url r) evs.
Proof.
  intros H. eapply Forall_impl; [exact H|].
  intros [u a| |[]|d]; simpl; done.
Qed.

(** One iteration, whatever the fetch returns. *)
Lemma iteration_inv (url : string) (st : locals) (w : world) :
  ∃ img w2 st' w' evs,
    fetch_image_url extract_image_url E url 0 (emit (Sleep BaseDelay) w)
      = (Returns img, w2)
    ∧ iteration E url st w = (Returns st', w')
    ∧ (∀ r, img = Some r → r ≠ EmptyString)
    ∧ results st' = <[url := py_of_img img]> (results st)
    ∧ completed st' = completed st + 1
    ∧ consecutive_fails st'
      = match img with
        | Some _ => 0
        | None => if 5 <=? consecutive_fails st + 1 then 0
                  else consecutive_fails st + 1
        end
    ∧ trace w' = trace w ++ evs
    ∧ Forall (iter_event url (results st')) evs
    ∧ cooldowns evs
      = match img with
        | Some _ => 0%nat
        | None => if 5 <=? consecutive_fails st + 1 then 1%nat else 0%nat
        end
    ∧ disk w' = (if completed st' mod BATCH_SAVE_EVERY =? 0
                 then Some (json_dumps (PDict (results st')))
                 else disk w).
Proof.
  destruct (fetch_image_url_shape extract_image_url E url 0
              (emit (Sleep BaseDelay) w)) as (img & evs & Hf & Hevs & Himg).
  assert (Hne : ∀ r, img = Some r → r ≠ EmptyString).
  { intros r ->. destruct Himg as (h & html & _ & Hx); [done|].
    by apply extract_image_url_nonempty in Hx. }
  assert (Htruthy : truthy img = match img with Some _ => true | None => false end).
  { destruct img as [[|c r]|]; [exfalso; exact (Hne EmptyString eq_refl eq_refl) | done | done]. }
  unfold iteration. rewrite Hf. rewrite Htruthy.
  set (r' := <[url:=py_of_img img]> (results st)).
  assert (Hc0 : cooldowns (Sleep BaseDelay :: Attempt url 0 :: evs) = 0%nat).
  { change (cooldowns ([Sleep BaseDelay; Attempt url 0] ++ evs) = 0%nat).
    rewrite cooldowns_app, (cooldowns_fetch url evs Hevs). reflexivity. }
  assert (Hi0 : Forall (iter_event url r') (Sleep BaseDelay :: Attempt url 0 :: evs)).
  { repeat constructor. by apply fetch_event_iter. }
  destruct img as [r|];
    [|destruct (5 <=? consecutive_fails st + 1) eqn:H5];
    cbv zeta beta iota;
    destruct ((completed st + 1) mod BATCH_SAVE_EVERY =? 0) eqn:Hb;
    eexists _, _, _, _, _;
    (split; [reflexivity|]); (split; [reflexivity|]); (split; [exact Hne|]);
    simpl; rewrite ?Hb, ?H5; simpl;
    (split; [reflexivity|]); (split; [reflexivity|]); (split; [reflexivity|]);
    rewrite <- ?app_assoc; simpl;
    (split; [reflexivity|]).
  all: split; [|split; [|reflexivity]].
  all: try exact Hi0; try exact Hc0.
  all: rewrite !app_comm_cons.
  all: try (apply Forall_app; split; [exact Hi0 | by repeat constructor]).
  all: by rewrite cooldowns_app, Hc0.
Qed.


Lemma loop_app (l1 l2 : list string) (st : locals) (w : world) :
  loop E (l1 ++ l2) st w =
    match loop E l1 st w with
    | (Returns st1, w1) => loop E l2 st1 w1
    | (Raises e, w1) => (Raises e, w1)
    end.
Proof.
  revert st w. induction l1 as [|u l1 IH]; intros st w; simpl; [done|].
  destruct (iteration E u st w) as [[st1|e] w1]; [apply IH | done].
Qed.

(** The loop returns; it counts the targets, gives each one an entry, and
    leaves the entries of all other keys as they were, in the mapping and in
    every flush. *)
Lemma loop_inv (urls : list string) :
  ∀ (st : locals) (w : world),
    ∃ st' w' evs,
      loop E urls st w = (Returns st', w')
      ∧ trace w' = trace w ++ evs
      ∧ completed st' = completed st + Z.of_nat (length urls)
      ∧ (∀ u, u ∈ urls → is_Some (results st' !! u))
      ∧ (∀ k, k ∉ urls → results st' !! k = results st !! k)
      ∧ Forall (loop_event urls (results st)) evs.
Proof.
  induction urls as [|url rest IH]; intros st w.
  - exists st, w, []. simpl. rewrite app_nil_r.
    repeat split; [lia | by intros u ?%elem_of_nil | constructor].
  - destruct (iteration_inv url st w)
      as (img & w2 & st1 & w1 & evs1 & _ & Hit & _ & Hr & Hc & _ & Ht & Hev & _).
    destruct (IH st1 w1) as (st' & w' & evs2 & Hl & Ht' & Hc' & Hin & Hout & Hev').
    exists st', w', (evs1 ++ evs2). simpl. rewrite Hit.
    split; [exact Hl|]. split; [by rewrite Ht', Ht, app_assoc|].
    split; [rewrite Hc', Hc; lia|].
    assert (Hkeep : ∀ k, k ∉ url :: rest → results st1 !! k = results st !! k).
    { intros k Hk. rewrite Hr. apply lookup_insert_ne.
      intros ->. apply Hk. by left. }
    split; [|split].
    + intros u Hu. destruct (decide (u ∈ rest)) as [Hrest|Hrest]; [by apply Hin|].
      apply elem_of_cons in Hu as [->|Hu]; [|done].
      rewrite (Hout url Hrest), Hr, lookup_insert_eq. by eexists.
    + intros k Hk. rewrite Hout by (intros ?; apply Hk; by right).
      by apply Hkeep.
    + apply Forall_app. split.
      * eapply Forall_impl; [exact Hev|].
        intros [u a| |sk|d]; simpl; try done.
        -- intros ->. by left.
        -- intros -> k Hk. by apply Hkeep.
      * eapply Forall_impl; [exact Hev'|].
        intros [u a| |sk|d]; simpl; try done.
        -- intros Hu. by right.
        -- intros Hd k Hk. rewrite Hd by (intros ?; apply Hk; by right).
           by apply Hkeep.
Qed.

(** When the loop ends on a multiple of [BATCH_SAVE_EVERY], the file holds
    the whole mapping. *)
Lemma loop_flushes (urls : list string) (st : locals) (w : world) :
  urls ≠ [] →
  (completed st + Z.of_nat (length urls)) mod BATCH_SAVE_EVERY = 0 →
  ∃ st' w', loop E urls st w = (Returns st', w')
            ∧ disk w' = Some (json_dumps (PDict (results st'))).
Proof.
  intros Hne Hmod.
  destruct (exists_last Hne) as (l & u & ->).
  rewrite loop_app.
  destruct (loop_inv l st w) as (st1 & w1 & evs & -> & _ & Hc & _).
  simpl.
  destruct (iteration_inv u st1 w1)
    as (img & w2 & st' & w' & evs1 & _ & -> & _ & _ & Hc' & _ & _ & _ & _ & Hd).
  exists st', w'. split; [done|].
  rewrite Hd. rewrite Hc', Hc.
  rewrite length_app in Hmod. simpl in Hmod.
  replace (completed st + Z.of_nat (length l) + 1)
    with (completed st + Z.of_nat (length l + 1)) by lia.
  by rewrite Hmod.
Qed.

(** A run of null results. *)
Lemma loop_nulls (urls : list string) :
  (∀ u, u ∈ urls →
        ∀ w, (fetch_image_url extract_image_url E u 0 w).1 = Returns None) →
  ∀ (st : locals) (w : world),
    0 ≤ consecutive_fails st < 5 →
    ∃ st' w',
      loop E urls st w = (Returns st', w')
      ∧ consecutive_fails st'
        = (consecutive_fails st + Z.of_nat (length urls)) mod 5
      ∧ Z.of_nat (cooldowns (since w w'))
        = (consecutive_fails st + Z.of_nat (length urls)) / 5.
Proof.
  induction urls as [|url rest IH]; intros Hnull st w Hcf.
  - exists st, w. simpl. unfold since. rewrite drop_all.
    rewrite Z.add_0_r, Z.mod_small, Z.div_small by lia. done.
  - destruct (iteration_inv url st w)
      as (img & w2 & st1 & w1 & evs1 & Hf & Hit & _ & _ & _ & Hcf1 & Ht & _ & Hcd & _).
    assert (img = None) as ->.
    { specialize (Hnull url (list_elem_of_here _ _) (emit (Sleep BaseDelay) w)).
      rewrite Hf in Hnull. by injection Hnull. }
    destruct (IH (λ u Hu, Hnull u (list_elem_of_further _ _ _ Hu)) st1 w1)
      as (st' & w' & Hl & Hcf' & Hcd').
    { rewrite Hcf1. destruct (Z.leb_spec 5 (consecutive_fails st + 1)); lia. }
    exists st', w'. simpl. rewrite Hit. split; [exact Hl|].
    assert (Hsince : since w w' = evs1 ++ since w1 w').
    { unfold since. rewrite Ht, length_app.
      destruct (loop_inv rest st1 w1) as (st2 & w2' & evs2 & Hl2 & Ht2 & _).
      rewrite Hl in Hl2. injection Hl2 as <- <-.
      rewrite Ht2, Ht. rewrite <- app_assoc.
      rewrite drop_app_length.
      rewrite (app_assoc (trace w) evs1 evs2), <- length_app.
      by rewrite drop_app_length. }
    rewrite Hsince, cooldowns_app, Nat2Z.inj_add, Hcd', Hcf', Hcd, Hcf1.
    change (length (url :: rest)) with (S (length rest)).
    rewrite Nat2Z.inj_succ.
    destruct (Z.leb_spec 5 (consecutive_fails st + 1)) as [H5|H5].
    + assert (consecutive_fails st = 4) as -> by lia.
      replace (4 + Z.succ (Z.of_nat (length rest)))
        with (Z.of_nat (length rest) + 1 * 5) by lia.
      rewrite Z.mod_add, Z.div_add by lia. rewrite Z.add_0_l.
      split; [done | lia].
    + replace (consecutive_fails st + Z.succ (Z.of_nat (length rest)))
        with (consecutive_fails st + 1 + Z.of_nat (length rest)) by lia.
      split; [done | lia].
Qed.

End OrchestratorFacts.

(** ** The run *)

Section RunFacts.

Context {codec : JsonCodec}.
Variable E : env.

Lemma is_none_false (v : pyval) : is_none v = false ↔ v ≠ PNone.
Proof. destruct v; simpl; split; done. Qed.

Lemma resolved_subset_Some (raw : gmap string pyval) (k : string) (v : pyval) :
  resolved_subset raw !! k = Some v ↔ raw !! k = Some v ∧ v ≠ PNone.
Proof.
  unfold resolved_subset. rewrite map_lookup_filter_Some. simpl.
  by rewrite is_none_false.
Qed.

Lemma resolved_subset_None (raw : gmap string pyval) (k : string) :
  resolved_subset raw !! k = None ↔ ¬ ∃ v, raw !! k = Some v ∧ v ≠ PNone.
Proof.
  rewrite eq_None_not_Some. unfold is_Some.
  split; intros H (v & Hv); apply H; exists v; by apply resolved_subset_Some.
Qed.

Lemma elem_of_to_scrape (urls : gset string) (existing : gmap string pyval)
    (u : string) :
  shuffles E →
  u ∈ to_scrape E urls existing ↔ u ∈ urls ∧ existing !! u = None.
Proof.
  intros Hsh. unfold to_scrape. rewrite (Hsh _).
  rewrite list_elem_of_filter, elem_of_elements. tauto.
Qed.

Lemma warm_up_shape (w : world) :
  disk (warm_up E w) = disk w
  ∧ ∃ evs, trace (warm_up E w) = trace w ++ evs
           ∧ Forall (λ e, e = Warmup ∨ e = Sleep SessionPause) evs.
Proof.
  unfold warm_up. destruct (transport E (trace w) homepage); simpl.
  - split; [done|]. exists [Warmup; Sleep SessionPause].
    rewrite <- app_assoc. split; [done|].
    apply Forall_cons; split; [by left|].
    apply Forall_cons; split; [by right | constructor].
  - split; [done|]. exists [Warmup]. split; [done|].
    apply Forall_cons; split; [by left | constructor].
Qed.

(** The two ways a run that could load the store ends. *)
Lemma main_cases (data : list item) (d : option text)
    (existing : gmap string pyval) :
  load_existing d = Returns existing →
  (to_scrape E (catalog_urls data) existing = []
   ∧ main E data d = (Returns (), {| disk := d; trace := [] |}))
  ∨ (to_scrape E (catalog_urls data) existing ≠ []
     ∧ ∃ st w evs,
         loop E (to_scrape E (catalog_urls data) existing)
           (init_locals existing) (warm_up E {| disk := d; trace := [] |})
         = (Returns st, w)
         ∧ main E data d = (Returns (), flush (results st) w)
         ∧ trace w = evs
         ∧ Forall (λ e, e = Warmup ∨ e = Sleep SessionPause
                        ∨ loop_event (to_scrape E (catalog_urls data) existing)
                            existing e) evs
         ∧ (∀ u, u ∈ to_scrape E (catalog_urls data) existing →
                 is_Some (results st !! u))
         ∧ (∀ k, k ∉ to_scrape E (catalog_urls data) existing →
                 results st !! k = existing !! k)).
Proof.
  intros Hload. unfold main. rewrite Hload. cbv zeta.
  destruct (to_scrape E (catalog_urls data) existing) as [|u rest] eqn:Hts;
    [by left | right].
  split; [done|].
  destruct (loop_inv E (u :: rest) (init_locals existing)
              (warm_up E {| disk := d; trace := [] |}))
    as (st & w & evs & Hl & Ht & _ & Hin & Hout & Hev).
  rewrite Hl. exists st, w, (trace w).
  repeat split; [|exact Hin|exact Hout].
  rewrite Ht.
  destruct (warm_up_shape {| disk := d; trace := [] |})
    as (_ & evs0 & -> & Hev0). simpl.
  apply Forall_app. split.
  - eapply Forall_impl; [exact Hev0|]. simpl. tauto.
  - eapply Forall_impl; [exact Hev|]. simpl. tauto.
Qed.

Lemma load_existing_inv (d : option text) (m : gmap string pyval) :
  load_existing d = Returns m →
  (d = None ∧ m = ∅)
  ∨ ∃ txt raw, d = Some txt ∧ json_loads txt = Some (PDict raw)
               ∧ m = resolved_subset raw.
Proof.
  destruct d as [txt|]; simpl; [|intros [= <-]; by left].
  destruct (json_loads txt) as [[| | | | | |raw]|] eqn:Hl; try done.
  intros [= <-]. right. by exists txt, raw.
Qed.

Lemma load_existing_flush (m : gmap string pyval) (w : world) :
  round_trips m →
  load_existing (disk (flush m w)) = Returns (resolved_subset m).
Proof. intros Hrt. simpl. by rewrite Hrt. Qed.

Lemma main_returns_loaded (data : list item) (d : option text) (w : world) :
  main E data d = (Returns (), w) →
  ∃ existing, load_existing d = Returns existing.
Proof.
  unfold main. destruct (load_existing d) as [existing|e]; [by eexists | done].
Qed.

End RunFacts.

(** ** The [json] module reads back what it wrote *)

Module JsonFacts.
Import Json.

(** The decoder reads an escaped character back. *)
Lemma scanstring_escape (c : ascii) (tail : list ascii) :
  scanstring (escape_char c ++ tail)
  = match scanstring tail with
    | Some (t, rest) => Some (c :: t, rest)
    | None => None
    end.
Proof.
  destruct c as [b0 b1 b2 b3 b4 b5 b6 b7];
    destruct b0, b1, b2, b3, b4, b5, b6, b7; reflexivity.
Qed.

Lemma scanstring_encode (s rest : list ascii) :
  scanstring (flat_map escape_char s ++ dquote :: rest) = Some (s, rest).
Proof.
  induction s as [|c s IH]; [reflexivity|].
  simpl flat_map. rewrite <- app_assoc, scanstring_escape. by rewrite IH.
Qed.

Lemma foldl_insert_list_to_map (L : list (string * pyval)) :
  ∀ acc : gmap string pyval,
    NoDup L.*1 →
    foldl (λ m kv, <[kv.1 := kv.2]> m) acc L = list_to_map L ∪ acc.
Proof.
  induction L as [|[k v] L IH]; intros acc Hnd.
  - change (acc = ∅ ∪ acc). by rewrite (left_id_L ∅ (∪)).
  - apply NoDup_cons in Hnd as [Hk Hnd]. cbn [foldl fst snd].
    rewrite IH by done.
    rewrite list_to_map_cons, <- insert_union_l.
    by rewrite <- insert_union_r by by apply not_elem_of_list_to_map_1.
Qed.

Section Flat.

Variable float_repr : Z → list ascii.
Variable float_of_literal : list ascii → Z.

Lemma parse_value_flat (v : pyval) (f : nat) (rest : list ascii) :
  str_or_null v →
  parse_value float_of_literal (S f) (encode float_repr v ++ rest)
  = Some (v, rest).
Proof.
  intros [->|(s & ->)]; [reflexivity|].
  unfold encode, encode_string.
  rewrite <- app_comm_cons, <- app_assoc.
  cbn [parse_value app]. rewrite Ascii.eqb_refl.
  by rewrite scanstring_encode, string_of_list_ascii_of_string.
Qed.

Lemma skip_ws_flat (v : pyval) (rest : list ascii) :
  str_or_null v →
  skip_ws (encode float_repr v ++ rest) = encode float_repr v ++ rest.
Proof. by intros [->|(s & ->)]. Qed.


Lemma object_text_members (L : list (string * pyval)) :
  L ≠ [] →
  object_text float_repr L
  = "{"%char :: dquote :: members_text float_repr L ++ ["}"%char].
Proof.
  intros Hne. unfold object_text. f_equal. rewrite app_comm_cons. f_equal.
  induction L as [|[k v] L IH]; [done|].
  destruct L as [|kv L].
  - simpl. unfold encode_member, encode_string. simpl.
    by rewrite <- !app_assoc, app_nil_r.
  - change (join item_separator
              (map encode_member
                 (prod_map id (encode float_repr) <$> (k, v) :: kv :: L)))
      with (encode_member (k, encode float_repr v) ++ item_separator
            ++ join item_separator
                 (map encode_member
                    (prod_map id (encode float_repr) <$> kv :: L))).
    rewrite IH by done.
    unfold encode_member, encode_string. simpl.
    by rewrite <- !app_assoc.
Qed.

Lemma length_members_text (L : list (string * pyval)) :
  (length L ≤ length (members_text float_repr L))%nat.
Proof.
  induction L as [|[k v] L IH]; [done|].
  cbn [members_text]. rewrite length_app. cbn [length].
  destruct L as [|kv L]; [simpl; lia|].
  remember (kv :: L) as L' eqn:HL'.
  rewrite !length_app. cbn [length] in *. lia.
Qed.

Lemma members_text_cons (k : string) (v : pyval)
    (L : list (string * pyval)) (R : list ascii) :
  members_text float_repr ((k, v) :: L) ++ R
  = flat_map escape_char (list_ascii_of_string k)
    ++ dquote :: ":"%char :: " "%char
       :: (encode float_repr v
           ++ match L with
              | [] => R
              | _ :: _ =>
                  ","%char :: " "%char :: dquote
                    :: (members_text float_repr L ++ R)
              end).
Proof.
  cbn [members_text]. rewrite <- app_assoc. f_equal.
  rewrite <- app_comm_cons. f_equal.
  rewrite <- !app_assoc.
  change (key_separator ++ ?x) with (":"%char :: " "%char :: x).
  do 3 f_equal.
  destruct L; [done|]. by rewrite <- app_assoc.
Qed.

Lemma parse_members_step (value : list ascii → option (pyval * list ascii))
    (n : nat) (acc : gmap string pyval) (k X : list ascii) :
  parse_members value (S n) acc
    (flat_map escape_char k ++ dquote :: ":"%char :: " "%char :: X)
  = match value (skip_ws X) with
    | None => None
    | Some (v, s3) =>
        let acc' := <[string_of_list_ascii k := v]> acc in
        match skip_ws s3 with
        | c' :: s4 =>
            if Ascii.eqb c' "}" then Some (acc', s4)
            else if Ascii.eqb c' "," then
              match skip_ws s4 with
              | q :: s5 =>
                  if Ascii.eqb q dquote
                  then parse_members value n acc' s5
                  else None
              | [] => None
              end
            else None
        | [] => None
        end
    end.
Proof. cbn [parse_members]. by rewrite scanstring_encode. Qed.

(** The members of an object of strings and nulls are read back one by
    one, each inserted into the mapping read so far. *)
Lemma parse_members_text (f : nat) (L : list (string * pyval)) :
  ∀ (n : nat) (acc : gmap string pyval) (rest : list ascii),
    L ≠ [] →
    (length L ≤ n)%nat →
    Forall (λ kv, str_or_null kv.2) L →
    parse_members (parse_value float_of_literal (S f)) n acc
      (members_text float_repr L ++ "}"%char :: rest)
    = Some (foldl (λ m kv, <[kv.1 := kv.2]> m) acc L, rest).
Proof.
  induction L as [|[k v] L IH]; intros n acc rest Hne Hn Hflat; [done|].
  destruct n as [|n]; [simpl in Hn; lia|].
  apply Forall_cons in Hflat as [Hv Hflat]. simpl in Hv.
  rewrite members_text_cons, parse_members_step.
  rewrite skip_ws_flat, parse_value_flat by done.
  rewrite string_of_list_ascii_of_string.
  destruct L as [|kv L]; [reflexivity|].
  remember (kv :: L) as L' eqn:HL'.
  change (parse_members (parse_value float_of_literal (S f)) n
            (<[k:=v]> acc) (members_text float_repr L' ++ "}"%char :: rest)
          = Some (foldl (λ m kv, <[kv.1 := kv.2]> m) (<[k:=v]> acc) L',
                  rest)).
  apply IH; [by subst | simpl in Hn; lia | done].
Qed.

Lemma parse_value_object (f : nat) (T : list ascii) :
  parse_value float_of_literal (S f) ("{"%char :: dquote :: T)
  = match parse_members (parse_value float_of_literal f) f ∅ T with
    | Some (d, rest) => Some (PDict d, rest)
    | None => None
    end.
Proof. reflexivity. Qed.

(** An object of strings and nulls with distinct keys, its members written
    in any order, is read back as the mapping of its members. *)
Lemma decode_object_text (L : list (string * pyval)) :
  NoDup L.*1 →
  Forall (λ kv, str_or_null kv.2) L →
  decode float_of_literal (object_text float_repr L)
  = Some (PDict (list_to_map L)).
Proof.
  intros Hnd Hflat.
  destruct L as [|kv L]; [reflexivity|].
  remember (kv :: L) as L' eqn:HL'.
  assert (HneL : L' ≠ []) by by subst.
  rewrite object_text_members by done.
  unfold decode.
  change (skip_ws ("{"%char :: ?X)) with ("{"%char :: X).
  cbn [length].
  rewrite parse_value_object.
  rewrite parse_members_text; [|done| |done].
  - rewrite foldl_insert_list_to_map by done.
    by rewrite (right_id_L ∅ (∪)).
  - pose proof (length_members_text L'). rewrite length_app. lia.
Qed.


(** The same in the order of insertion, whichever it was. *)
Lemma decode_any_order (m : gmap string pyval)
    (L : list (string * pyval)) :
  (∀ k v, m !! k = Some v → str_or_null v) →
  L ≡ₚ map_to_list m →
  decode float_of_literal (object_text float_repr L) = Some (PDict m).
Proof.
  intros Hm HL.
  assert (Hnd : NoDup L.*1) by (rewrite HL; apply NoDup_fst_map_to_list).
  rewrite decode_object_text; [|done|].
  - rewrite (list_to_map_proper L (map_to_list m)) by done.
    by rewrite list_to_map_to_list.
  - apply Forall_forall. intros [k v] Hkv. rewrite HL in Hkv.
    apply elem_of_map_to_list in Hkv. exact (Hm k v Hkv).
Qed.

End Flat.
End JsonFacts.



(** * The claims *)

Lemma value_codec_round_trips (m : gmap string pyval) :
  @round_trips value_codec m.
Proof. reflexivity. Qed.

Lemma identity_shuffles (E : env) : (∀ l, shuffle E l = l) → shuffles E.
Proof. intros H l. by rewrite H. Qed.

Lemma offline_fetch_is_null (u : string) (w : @world value_codec) :
  (fetch_image_url extract_image_url offline u 0 w).1 = Returns None.
Proof. reflexivity. Qed.

Example extract_page_a : extract_image_url page_a = Returns (Some ref_a).
Proof. vm_compute. reflexivity. Qed.

Example extract_nothing : extract_image_url "<html></html>" = Returns None.
Proof. vm_compute. reflexivity. Qed.

(** The scenario of section 8.6 of the specification: the run stores the
    reference of [url_a] and a null for [url_b]. *)
Example end_to_end_scenario :
  (main (codec := value_codec) only_a catalog_ab None).1 = Returns ()
  ∧ disk (main (codec := value_codec) only_a catalog_ab None).2 = Some text_ab.
Proof. split; vm_compute; reflexivity. Qed.

(** ** C1: null is retriable *)

(** C1.  Let the prior store hold the dictionary [raw].  A catalog target
    that [raw] maps to null is in the list to scrape; a target that [raw]
    maps to anything but null is not; and the list to scrape holds exactly
    the catalog targets without a non-null entry in [raw]. *)
Theorem null_is_retriable {codec : JsonCodec} (E : env) (data : list item)
    (txt : text) (raw : gmap string pyval) :
  shuffles E →
  json_loads txt = Some (PDict raw) →
  load_existing (Some txt) = Returns (resolved_subset raw)
  ∧ ∀ t,
      (raw !! t = Some PNone → t ∈ catalog_urls data →
       t ∈ to_scrape E (catalog_urls data) (resolved_subset raw))
      ∧ (∀ v, raw !! t = Some v → v ≠ PNone →
         t ∉ to_scrape E (catalog_urls data) (resolved_subset raw))
      ∧ (t ∈ to_scrape E (catalog_urls data) (resolved_subset raw)
         ↔ t ∈ catalog_urls data ∧ ¬ ∃ v, raw !! t = Some v ∧ v ≠ PNone).
Proof.
  intros Hsh Hraw. split; [simpl; by rewrite Hraw|].
  intros t. rewrite (elem_of_to_scrape E _ _ t Hsh), resolved_subset_None.
  split; [|split; [|done]].
  - intros Hnull Hin. split; [done|]. intros (v & Hv & Hne). congruence.
  - intros v Hv Hne [_ Hnot]%(elem_of_to_scrape E _ _ t Hsh).
    apply resolved_subset_None in Hnot. apply Hnot. by exists v.
Qed.

Lemma null_is_retriable_witness :
  url_b ∈ to_scrape only_a (catalog_urls catalog_ab) (resolved_subset store_ab)
  ∧ url_a ∉ to_scrape only_a (catalog_urls catalog_ab) (resolved_subset store_ab).
Proof.
  destruct (null_is_retriable (codec := value_codec) only_a catalog_ab
              text_ab store_ab
              (identity_shuffles only_a (λ l, eq_refl)) eq_refl) as [_ H].
  split.
  - apply (proj1 (H url_b)).
    + reflexivity.
    + compute_done.
  - apply (proj1 (proj2 (H url_a)) (PStr ref_a)).
    + reflexivity.
    + discriminate.
Defined.

(** ** C2: resuming after a run *)

(** C2, as stated, fails on the scenario of section 8.6: the first run
    stores a null for [url_b], and the second run scrapes [url_b] again. *)
Lemma resume_refetches_failed_target :
  ¬ @resume_idempotent value_codec only_a catalog_ab None.
Proof.
  intros H. destruct (H after_first_run) as [_ Hzero]; [by vm_compute|].
  vm_compute in Hzero. discriminate.
Qed.

(** C2, as the code has it.  After a run, a second run on the same catalog
    and on the store the first one left has to scrape exactly the catalog
    targets that this store maps to null.  When there is none, the second
    run makes no request and leaves the file as it is. *)
Theorem resume_retries_exactly_the_nulls {codec : JsonCodec} (E1 E2 : env)
    (data : list item) (d : option text) (w1 : world) :
  (∀ m, round_trips m) →
  shuffles E1 → shuffles E2 →
  main E1 data d = (Returns (), w1) →
  ∃ existing2,
    load_existing (disk w1) = Returns existing2
    ∧ (∀ t, t ∈ to_scrape E2 (catalog_urls data) existing2
            ↔ t ∈ catalog_urls data ∧ stored (disk w1) t PNone)
    ∧ (to_scrape E2 (catalog_urls data) existing2 = [] →
       main E2 data (disk w1) = (Returns (), {| disk := disk w1; trace := [] |})).
Proof.
  intros Hrt Hsh1 Hsh2 Hmain.
  destruct (main_returns_loaded E1 data d w1 Hmain) as (existing1 & Hload1).
  assert (Hgoal : ∃ existing2,
    load_existing (disk w1) = Returns existing2
    ∧ (∀ t, t ∈ to_scrape E2 (catalog_urls data) existing2
            ↔ t ∈ catalog_urls data ∧ stored (disk w1) t PNone)).
  { destruct (main_cases E1 data d existing1 Hload1)
      as [[Hnil Hm]|(Hne & st & w & evs & Hl & Hm & _ & _ & Hin & Hout)];
      rewrite Hm in Hmain; injection Hmain as <-.
    - exists existing1. simpl. split; [done|].
      intros t. rewrite (elem_of_to_scrape E2 _ _ t Hsh2).
      assert (Hall : ∀ u, u ∈ catalog_urls data → existing1 !! u ≠ None).
      { intros u Hu Hnone.
        assert (u ∈ to_scrape E1 (catalog_urls data) existing1) as Hp
          by by apply elem_of_to_scrape.
        rewrite Hnil in Hp. by apply elem_of_nil in Hp. }
      split.
      + intros [Hu Hnone]. by destruct (Hall t Hu).
      + intros [Hu (txt & raw & -> & Hraw & Hnull)]. exfalso.
        apply (Hall t Hu). simpl in Hload1. rewrite Hraw in Hload1.
        injection Hload1 as <-. apply resolved_subset_None.
        intros (v & Hv & Hnn). congruence.
    - exists (resolved_subset (results st)).
      split; [by apply load_existing_flush|].
      intros t. rewrite (elem_of_to_scrape E2 _ _ t Hsh2), resolved_subset_None.
      assert (Hsome : t ∈ catalog_urls data → is_Some (results st !! t)).
      { intros Hu.
        destruct (decide (t ∈ to_scrape E1 (catalog_urls data) existing1))
          as [Hp|Hp]; [by apply Hin|].
        rewrite (Hout t Hp).
        rewrite (elem_of_to_scrape E1 _ _ t Hsh1) in Hp.
        destruct (existing1 !! t); [by eexists | tauto]. }
      split.
      + intros [Hu Hnot]. split; [done|].
        destruct (Hsome Hu) as (v & Hv).
        exists (json_dumps (PDict (results st))), (results st).
        split; [done|]. split; [apply Hrt|].
        destruct v; try (exfalso; apply Hnot; eexists; split; [exact Hv | done]).
        exact Hv.
      + intros [Hu (txt & raw & [= <-] & Hraw & Hnull)]. split; [done|].
        rewrite Hrt in Hraw. injection Hraw as <-.
        intros (v & Hv & Hnn). congruence. }
  destruct Hgoal as (existing2 & Hload2 & Hiff).
  exists existing2. split; [done|]. split; [done|].
  intros Hnil.
  destruct (main_cases E2 data (disk w1) existing2 Hload2)
    as [[_ Hm]|(Hne & _)]; done.
Qed.

Lemma resume_retries_exactly_the_nulls_witness :
  ∃ existing2,
    load_existing (disk after_first_run) = Returns existing2
    ∧ (∀ t, t ∈ to_scrape only_a (catalog_urls catalog_ab) existing2
            ↔ t ∈ catalog_urls catalog_ab ∧ stored (disk after_first_run) t PNone)
    ∧ (to_scrape only_a (catalog_urls catalog_ab) existing2 = [] →
       main only_a catalog_ab (disk after_first_run)
       = (Returns (), {| disk := disk after_first_run; trace := [] |})).
Proof.
  apply (resume_retries_exactly_the_nulls (codec := value_codec)
           only_a only_a catalog_ab None after_first_run).
  - exact value_codec_round_trips.
  - apply identity_shuffles. reflexivity.
  - apply identity_shuffles. reflexivity.
  - vm_compute. reflexivity.
Defined.

(** ** C3: the retry bound *)

(** C3.  When every request for [url] is answered by HTTP 429 or 403,
    [fetch_image_url url] makes exactly [MAX_RETRIES + 1 = 3] attempts, with
    a back-off sleep after the first and after the second, and returns
    [None]. *)
Theorem retry_bound {codec : JsonCodec}
    (extract : string → outcome (option string)) (E : env)
    (url : string) (w : world) :
  (∀ h, ∃ code, transport E h url = Raises (HTTPError code)
                ∧ (code = 429 ∨ code = 403)) →
  ∃ w', fetch_image_url extract E url 0 w = (Returns None, w')
        ∧ since w w' = [ Attempt url 0; Sleep (Backoff 0);
                         Attempt url 1; Sleep (Backoff 1); Attempt url 2 ]
        ∧ Z.of_nat (attempts (since w w')) = MAX_RETRIES + 1
        ∧ MAX_RETRIES + 1 = 3
        ∧ disk w' = disk w.
Proof.
  intros Hblocked.
  assert (Htry : ∀ w0, ∃ code, try_fetch extract E url w0 = Raises (HTTPError code)
                               ∧ (code = 429 ∨ code = 403)).
  { intros w0. destruct (Hblocked (trace w0)) as (code & Ht & Hc).
    exists code. unfold try_fetch. by rewrite Ht. }
  set (w1 := emit (Sleep (Backoff 0)) (emit (Attempt url 0) w)).
  set (w2 := emit (Sleep (Backoff 1)) (emit (Attempt url 1) w1)).
  exists (emit (Attempt url 2) w2).
  assert (Hs : since w (emit (Attempt url 2) w2)
               = [ Attempt url 0; Sleep (Backoff 0);
                   Attempt url 1; Sleep (Backoff 1); Attempt url 2 ]).
  { apply since_app. simpl. by rewrite <- !app_assoc. }
  split; [|by rewrite Hs].
  destruct (Htry w) as (c0 & H0 & Hc0).
  rewrite (fetch_retries extract E url 0 c0 w H0 Hc0) by done.
  change (fetch_image_url extract E url 1 w1
          = (Returns None, emit (Attempt url 2) w2)).
  destruct (Htry w1) as (c1 & H1 & Hc1).
  rewrite (fetch_retries extract E url 1 c1 w1 H1 Hc1) by done.
  destruct (Htry w2) as (c2 & H2 & Hc2).
  apply (fetch_gives_up extract E url 2 w2 _ H2).
  intros (c & _ & _ & Hlt). unfold MAX_RETRIES in Hlt. lia.
Qed.

Lemma retry_bound_witness :
  ∃ w', fetch_image_url extract_image_url rate_limited url_a 0 fresh
        = (Returns None, w')
        ∧ since fresh w' = [ Attempt url_a 0; Sleep (Backoff 0);
                             Attempt url_a 1; Sleep (Backoff 1); Attempt url_a 2 ]
        ∧ Z.of_nat (attempts (since fresh w')) = MAX_RETRIES + 1
        ∧ MAX_RETRIES + 1 = 3
        ∧ disk w' = disk fresh.
Proof.
  apply (retry_bound (codec := value_codec) extract_image_url rate_limited
           url_a fresh).
  intros h. exists 429. split; [reflexivity | by left].
Defined.

(** ** C4: the retry policy *)

(** C4.  An attempt is followed by another one exactly when its [try] block
    raised an HTTP error with code 429 or 403 and [attempt < MAX_RETRIES],
    that is 2; the fetch then sleeps and goes on as the fetch of
    [attempt + 1].  After any other error, from the network or from the
    extraction, there is no further attempt: the fetch has made this one
    request and returns [None]. *)
Theorem retry_iff_blocked_below_bound {codec : JsonCodec}
    (extract : string → outcome (option string)) (E : env)
    (url : string) (attempt : Z) (w : world) :
  MAX_RETRIES = 2
  ∧ (Attempt url (attempt + 1)
       ∈ since w (fetch_image_url extract E url attempt w).2
     ↔ ∃ code, try_fetch extract E url w = Raises (HTTPError code)
               ∧ (code = 429 ∨ code = 403) ∧ attempt < MAX_RETRIES)
  ∧ (∀ code, try_fetch extract E url w = Raises (HTTPError code) →
             (code = 429 ∨ code = 403) → attempt < MAX_RETRIES →
       fetch_image_url extract E url attempt w
       = fetch_image_url extract E url (attempt + 1)
           (emit (Sleep (Backoff attempt)) (emit (Attempt url attempt) w)))
  ∧ (∀ e, try_fetch extract E url w = Raises e →
          ¬ (∃ code, e = HTTPError code
                     ∧ (code = 429 ∨ code = 403) ∧ attempt < MAX_RETRIES) →
       fetch_image_url extract E url attempt w
       = (Returns None, emit (Attempt url attempt) w)).
Proof.
  pose proof (fetch_retries extract E url attempt) as Hyes.
  pose proof (fetch_gives_up extract E url attempt w) as Hno.
  split; [done|]. split; [|split; [intros code; apply Hyes | exact Hno]].
  split.
  - intros Hin.
    destruct (try_fetch extract E url w) as [img|e] eqn:Ht.
    + rewrite fetch_image_url_eq, Ht in Hin. simpl in Hin.
      rewrite since_emit in Hin. apply list_elem_of_singleton in Hin.
      injection Hin. lia.
    + destruct (classic_retry e attempt) as [(code & -> & Hc & Hlt)|Hnot];
        [by exists code|].
      rewrite (Hno e eq_refl Hnot) in Hin. simpl in Hin.
      rewrite since_emit in Hin. apply list_elem_of_singleton in Hin.
      injection Hin. lia.
  - intros (code & Ht & Hc & Hlt). rewrite (Hyes code w Ht Hc Hlt).
    destruct (fetch_image_url_shape extract E url (attempt + 1)
                (emit (Sleep (Backoff attempt)) (emit (Attempt url attempt) w)))
      as (img & evs & -> & _).
    simpl.
    rewrite (since_app w _ (Attempt url attempt :: Sleep (Backoff attempt)
                              :: Attempt url (attempt + 1) :: evs))
      by (simpl; by rewrite <- !app_assoc).
    rewrite !elem_of_cons. auto.
Qed.

Lemma retry_iff_blocked_below_bound_witness :
  Attempt url_a 1
    ∈ since fresh (fetch_image_url extract_image_url rate_limited url_a 0 fresh).2
  ∧ fetch_image_url extract_image_url offline url_a 0 fresh
    = (Returns None, emit (Attempt url_a 0) fresh)
  ∧ fetch_image_url extract_image_url rate_limited url_a 2 fresh
    = (Returns None, emit (Attempt url_a 2) fresh).
Proof.
  split; [|split].
  - apply (proj1 (proj2 (retry_iff_blocked_below_bound (codec := value_codec)
                           extract_image_url rate_limited url_a 0 fresh))).
    exists 429. split; [reflexivity|]. split; [by left | reflexivity].
  - apply (proj2 (proj2 (proj2 (retry_iff_blocked_below_bound
                                  (codec := value_codec)
                                  extract_image_url offline url_a 0 fresh)))
             (Exception "URLError")); [reflexivity|].
    intros (code & Hcode & _). discriminate Hcode.
  - apply (proj2 (proj2 (proj2 (retry_iff_blocked_below_bound
                                  (codec := value_codec)
                                  extract_image_url rate_limited url_a 2 fresh)))
             (HTTPError 429)); [reflexivity|].
    intros (code & _ & _ & Hlt). unfold MAX_RETRIES in Hlt. lia.
Defined.

(** ** C5: no exception leaves the fetcher *)

(** C5.  Whatever the network and the extractor return or raise,
    [fetch_image_url] returns a value and raises nothing; and it returns a
    reference only when the extractor returned that reference for a page
    the network delivered, so that every failure ends as [None]. *)
Theorem fetch_never_raises {codec : JsonCodec}
    (extract : string → outcome (option string)) (E : env)
    (url : string) (attempt : Z) (w : world) :
  ∃ img w',
    fetch_image_url extract E url attempt w = (Returns img, w')
    ∧ (img ≠ None →
       ∃ h html, transport E h url = Returns html ∧ extract html = Returns img).
Proof.
  destruct (fetch_image_url_shape extract E url attempt w)
    as (img & evs & Hf & _ & Himg).
  by eexists _, _.
Qed.

Lemma fetch_never_raises_witness :
  ∃ img w',
    fetch_image_url extract_image_url only_a url_a 0 fresh = (Returns img, w')
    ∧ (img ≠ None →
       ∃ h html, transport only_a h url_a = Returns html
                 ∧ extract_image_url html = Returns img).
Proof.
  exact (fetch_never_raises (codec := value_codec) extract_image_url only_a
           url_a 0 fresh).
Defined.

(** ** C6: the failure streak *)

(** C6.  An iteration whose fetch returns a reference leaves
    [consecutive_fails] at 0 and sleeps no cool-down.  From a streak of 0,
    a run of [n] null results leaves the streak at [n mod 5] and has slept
    [n / 5] cool-downs: the fifth null sleeps one cool-down and resets the
    streak, the sixth to the ninth sleep none, the tenth sleeps the
    second. *)
Theorem cooldown_exactly_at_threshold {codec : JsonCodec} (E : env) :
  (∀ url st w r w2,
      fetch_image_url extract_image_url E url 0 (emit (Sleep BaseDelay) w)
        = (Returns (Some r), w2) →
      ∃ st' w', iteration E url st w = (Returns st', w')
                ∧ consecutive_fails st' = 0
                ∧ cooldowns (since w w') = 0%nat)
  ∧ (∀ urls st w,
      (∀ u, u ∈ urls →
            ∀ w0, (fetch_image_url extract_image_url E u 0 w0).1 = Returns None) →
      consecutive_fails st = 0 →
      ∃ st' w', loop E urls st w = (Returns st', w')
                ∧ consecutive_fails st' = Z.of_nat (length urls) mod 5
                ∧ Z.of_nat (cooldowns (since w w')) = Z.of_nat (length urls) / 5
                ∧ (length urls = 5%nat →
                   consecutive_fails st' = 0 ∧ cooldowns (since w w') = 1%nat)
                ∧ ((5 ≤ length urls < 10)%nat → cooldowns (since w w') = 1%nat)
                ∧ (length urls = 10%nat → cooldowns (since w w') = 2%nat)).
Proof.
  split.
  - intros url st w r w2 Hf.
    destruct (iteration_inv E url st w)
      as (img & w2' & st' & w' & evs & Hf' & Hit & _ & _ & _ & Hcf & Ht & _ & Hcd & _).
    rewrite Hf in Hf'. injection Hf' as <- <-.
    exists st', w'. split; [done|]. split; [done|].
    by rewrite (since_app w w' evs Ht).
  - intros urls st w Hnull Hcf.
    destruct (loop_nulls E urls Hnull st w) as (st' & w' & Hl & Hcf' & Hcd);
      [lia|].
    rewrite Hcf, Z.add_0_l in Hcf', Hcd.
    exists st', w'. split; [done|]. split; [done|]. split; [done|].
    split; [|split].
    + intros Hlen. rewrite Hlen in Hcf', Hcd.
      change (Z.of_nat 5 / 5) with 1 in Hcd.
      change (Z.of_nat 5 mod 5) with 0 in Hcf'. split; [done | lia].
    + intros Hlen.
      assert (Z.of_nat (length urls) / 5 = 1); [|lia].
      symmetry. apply (Z.div_unique _ 5 1 (Z.of_nat (length urls) - 5)); lia.
    + intros Hlen. rewrite Hlen in Hcd.
      change (Z.of_nat 10 / 5) with 2 in Hcd. lia.
Qed.

Lemma cooldown_exactly_at_threshold_witness :
  (∃ st' w', iteration only_a url_a (init_locals ∅) fresh = (Returns st', w')
             ∧ consecutive_fails st' = 0
             ∧ cooldowns (since fresh w') = 0%nat)
  ∧ (∃ st' w', loop offline (targets 5) (init_locals ∅) fresh = (Returns st', w')
               ∧ consecutive_fails st' = 0
               ∧ cooldowns (since fresh w') = 1%nat)
  ∧ (∃ st' w', loop offline (targets 6) (init_locals ∅) fresh = (Returns st', w')
               ∧ consecutive_fails st' = 1
               ∧ cooldowns (since fresh w') = 1%nat).
Proof.
  split; [|split].
  - eapply (proj1 (cooldown_exactly_at_threshold (codec := value_codec) only_a)).
    vm_compute. reflexivity.
  - destruct (proj2 (cooldown_exactly_at_threshold (codec := value_codec) offline)
                (targets 5) (init_locals ∅) fresh
                (λ u _ w0, offline_fetch_is_null u w0) eq_refl)
      as (st' & w' & Hl & _ & _ & H5 & _).
    exists st', w'. split; [exact Hl | by apply H5].
  - destruct (proj2 (cooldown_exactly_at_threshold (codec := value_codec) offline)
                (targets 6) (init_locals ∅) fresh
                (λ u _ w0, offline_fetch_is_null u w0) eq_refl)
      as (st' & w' & Hl & Hcf & _ & _ & H6 & _).
    exists st', w'. split; [exact Hl|]. split; [exact Hcf | apply H6].
    simpl. lia.
Defined.

(** ** C7: flush, then load *)



(** ** C8: a missing store and a corrupt store *)

(** C8.  Without an output file the prior store is the empty mapping.  With
    a file that [json] cannot parse, loading raises, and so does the run,
    before it has made any request or written anything.  A store is only
    ever loaded from no file or from a file that holds a dictionary. *)
Theorem missing_store_is_empty_corrupt_store_is_fatal {codec : JsonCodec}
    (E : env) (data : list item) (txt : text) :
  json_loads txt = None →
  load_existing None = Returns ∅
  ∧ load_existing (Some txt) = Raises (Exception "JSONDecodeError")
  ∧ main E data (Some txt)
    = (Raises (Exception "JSONDecodeError"), {| disk := Some txt; trace := [] |})
  ∧ (∀ d m, load_existing d = Returns m →
       (d = None ∧ m = ∅)
       ∨ ∃ txt' raw, d = Some txt' ∧ json_loads txt' = Some (PDict raw)
                     ∧ m = resolved_subset raw).
Proof.
  intros Hbad. split; [done|].
  assert (Hl : load_existing (Some txt) = Raises (Exception "JSONDecodeError"))
    by (simpl; by rewrite Hbad).
  split; [done|]. split; [|apply load_existing_inv].
  unfold main. by rewrite Hl.
Qed.

Lemma missing_store_is_empty_corrupt_store_is_fatal_witness :
  @load_existing value_codec None = Returns ∅
  ∧ load_existing (Some garbage) = Raises (Exception "JSONDecodeError")
  ∧ main only_a catalog_ab (Some garbage)
    = (Raises (Exception "JSONDecodeError"),
       {| disk := Some garbage; trace := [] |})
  ∧ (∀ d m, @load_existing value_codec d = Returns m →
       (d = None ∧ m = ∅)
       ∨ ∃ txt' raw, d = Some txt' ∧ json_loads txt' = Some (PDict raw)
                     ∧ m = resolved_subset raw).
Proof.
  apply (missing_store_is_empty_corrupt_store_is_fatal (codec := value_codec)
           only_a catalog_ab garbage).
  reflexivity.
Defined.

(** ** C9: flush durability *)

(** C9.  When the loop has processed [BATCH_SAVE_EVERY] targets, the file
    holds the mapping as it is then, and that mapping, read back, has an
    entry for each of these targets.  And a run with something to scrape
    ends by a flush of the whole mapping, which has an entry for every
    target scraped. *)
Theorem flush_durability {codec : JsonCodec} (E : env) :
  (∀ m, round_trips m) →
  (∀ existing l w,
      length l = Z.to_nat BATCH_SAVE_EVERY →
      ∃ st' w' txt raw,
        loop E l (init_locals existing) w = (Returns st', w')
        ∧ disk w' = Some txt
        ∧ json_loads txt = Some (PDict raw)
        ∧ raw = results st'
        ∧ ∀ u, u ∈ l → is_Some (raw !! u))
  ∧ (∀ data d existing,
      load_existing d = Returns existing →
      to_scrape E (catalog_urls data) existing ≠ [] →
      ∃ st w,
        loop E (to_scrape E (catalog_urls data) existing)
          (init_locals existing) (warm_up E {| disk := d; trace := [] |})
        = (Returns st, w)
        ∧ main E data d = (Returns (), flush (results st) w)
        ∧ last (trace (main E data d).2) = Some (Flush (results st))
        ∧ disk (main E data d).2 = Some (json_dumps (PDict (results st)))
        ∧ (∀ u, u ∈ to_scrape E (catalog_urls data) existing →
                is_Some (results st !! u))).
Proof.
  intros Hrt. split.
  - intros existing l w Hlen.
    destruct (loop_flushes E l (init_locals existing) w) as (st' & w' & Hl & Hd).
    { intros ->. simpl in Hlen. unfold BATCH_SAVE_EVERY in Hlen. lia. }
    { rewrite Hlen. reflexivity. }
    destruct (loop_inv E l (init_locals existing) w)
      as (st2 & w2 & evs & Hl2 & _ & _ & Hin & _).
    rewrite Hl in Hl2. injection Hl2 as <- <-.
    exists st', w', (json_dumps (PDict (results st'))), (results st').
    repeat split; [done | done | apply Hrt | exact Hin].
  - intros data d existing Hload Hne.
    destruct (main_cases E data d existing Hload)
      as [[Hnil _]|(_ & st & w & evs & Hl & Hm & _ & _ & Hin & Hout)]; [done|].
    exists st, w. rewrite Hm. simpl.
    repeat split; [done | by rewrite last_snoc | exact Hin].
Qed.

Lemma flush_durability_witness :
  (∃ st' w' txt raw,
      loop offline (targets 20) (init_locals ∅) fresh = (Returns st', w')
      ∧ disk w' = Some txt
      ∧ json_loads txt = Some (PDict raw)
      ∧ raw = results st'
      ∧ ∀ u, u ∈ targets 20 → is_Some (raw !! u))
  ∧ (∃ st w,
      main (codec := value_codec) only_a catalog_ab None
      = (Returns (), flush (results st) w)
      ∧ last (trace (main (codec := value_codec) only_a catalog_ab None).2)
        = Some (Flush (results st))).
Proof.
  destruct (flush_durability (codec := value_codec) offline
              value_codec_round_trips) as [H20 _].
  destruct (flush_durability (codec := value_codec) only_a
              value_codec_round_trips) as [_ Hend].
  split.
  - apply H20. reflexivity.
  - destruct (Hend catalog_ab None ∅ eq_refl) as (st & w & _ & Hm & Hlast & _).
    + vm_compute. discriminate.
    + exists st, w. split; [exact Hm | exact Hlast].
Defined.

(** ** C10: resolved entries are left alone *)

(** C10.  Let the prior store map [k] to a value [v] that is not null,
    whether [k] is in the catalog or not.  Then the run returns, it makes no
    attempt for [k], every flush writes a mapping that maps [k] to [v], and
    at the end the file is the prior one or holds such a mapping. *)
Theorem resolved_entries_are_preserved {codec : JsonCodec} (E : env)
    (data : list item) (txt : text) (raw : gmap string pyval)
    (k : string) (v : pyval) :
  shuffles E →
  json_loads txt = Some (PDict raw) →
  raw !! k = Some v →
  v ≠ PNone →
  ∃ w, main E data (Some txt) = (Returns (), w)
       ∧ (∀ a, Attempt k a ∉ trace w)
       ∧ (∀ m, Flush m ∈ trace w → m !! k = Some v)
       ∧ (disk w = Some txt
          ∨ ∃ m, disk w = Some (json_dumps (PDict m)) ∧ m !! k = Some v).
Proof.
  intros Hsh Hraw Hk Hv.
  assert (Hload : load_existing (Some txt) = Returns (resolved_subset raw))
    by (simpl; by rewrite Hraw).
  assert (Hex : resolved_subset raw !! k = Some v)
    by by apply resolved_subset_Some.
  destruct (main_cases E data (Some txt) _ Hload)
    as [[_ Hm]|(_ & st & w & evs & _ & Hm & <- & Hev & _ & Hout)];
    rewrite Hm; eexists; (split; [reflexivity|]); simpl.
  - split; [intros a Hin; by apply elem_of_nil in Hin|].
    split; [intros m Hin; by apply elem_of_nil in Hin | by left].
  - assert (Hp : k ∉ to_scrape E (catalog_urls data) (resolved_subset raw)).
    { rewrite (elem_of_to_scrape E _ _ k Hsh). rewrite Hex. by intros [_ ?]. }
    assert (Hfinal : results st !! k = Some v) by by rewrite (Hout k Hp).
    rewrite Forall_forall in Hev.
    split; [|split].
    + intros a [Hin|Hin]%elem_of_app.
      * destruct (Hev _ Hin) as [?|[?|Hle]]; [done | done |].
        simpl in Hle. done.
      * by apply list_elem_of_singleton in Hin.
    + intros m [Hin|Hin]%elem_of_app.
      * destruct (Hev _ Hin) as [?|[?|Hle]]; [done | done |].
        simpl in Hle. by rewrite (Hle k Hp).
      * apply list_elem_of_singleton in Hin. by injection Hin as ->.
    + right. by exists (results st).
Qed.

Lemma resolved_entries_are_preserved_witness :
  ∃ w, main only_a catalog_ab (Some text_ab) = (Returns (), w)
       ∧ (∀ a, Attempt url_a a ∉ trace w)
       ∧ (∀ m, Flush m ∈ trace w → m !! url_a = Some (PStr ref_a))
       ∧ (disk w = Some text_ab
          ∨ ∃ m, disk w = Some (json_dumps (PDict m))
                 ∧ m !! url_a = Some (PStr ref_a)).
Proof.
  apply (resolved_entries_are_preserved (codec := value_codec) only_a catalog_ab
           text_ab store_ab url_a (PStr ref_a)).
  - apply identity_shuffles. reflexivity.
  - reflexivity.
  - reflexivity.
  - discriminate.
Defined.

(** * Further properties *)

(** ** Strings and regular expressions *)

Module StringFacts.

Lemma append_cons (x : ascii) (a b : string) :
  String x a +:+ b = String x (a +:+ b).
Proof. reflexivity. Qed.

Lemma append_nil (b : string) : EmptyString +:+ b = b.
Proof. reflexivity. Qed.

Lemma prefix_append (n b : string) : String.prefix n (n +:+ b) = true.
Proof.
  induction n as [|c n IH]; [rewrite append_nil; by destruct b|].
  rewrite append_cons. simpl.
  destruct (ascii_dec c c) as [_|Hne]; [exact IH | by destruct Hne].
Qed.

Lemma prefix_inv (n h : string) :
  String.prefix n h = true → ∃ b, h = n +:+ b.
Proof.
  revert h. induction n as [|c n IH]; intros h.
  - intros _. by exists h.
  - destruct h as [|d h]; simpl; [discriminate|].
    destruct (ascii_dec c d) as [<-|]; [|discriminate].
    intros (b & ->)%IH. by exists b.
Qed.

Lemma contains_cons (n : string) (c : ascii) (h : string) :
  contains n (String c h) = String.prefix n (String c h) || contains n h.
Proof. reflexivity. Qed.

Lemma contains_iff (n h : string) :
  contains n h = true ↔ ∃ a b, h = a +:+ n +:+ b.
Proof.
  split.
  - induction h as [|c h IH].
    + intros H. change (String.prefix n "" = true) in H.
      apply prefix_inv in H as (b & Hb). by exists EmptyString, b.
    + rewrite contains_cons.
      intros [(b & Hb)%prefix_inv | (a & b & ->)%IH]%orb_true_iff.
      * by exists EmptyString, b.
      * by exists (String c a), b.
  - intros (a & b & ->). induction a as [|c a IH].
    + change (contains n (n +:+ b) = true).
      destruct (n +:+ b) as [|c h] eqn:Hnb.
      * destruct n; [done | discriminate].
      * rewrite contains_cons, <- Hnb. by rewrite prefix_append.
    + change (contains n (String c (a +:+ n +:+ b)) = true).
      by rewrite contains_cons, IH, orb_true_r.
Qed.

Lemma append_assoc (a b c : string) : (a +:+ b) +:+ c = a +:+ b +:+ c.
Proof.
  induction a as [|x a IH]; [done|]. rewrite !append_cons. by f_equal.
Qed.

Lemma contains_trans (n u h : string) :
  contains n u = true → contains u h = true → contains n h = true.
Proof.
  rewrite !contains_iff. intros (a & b & ->) (a' & b' & ->).
  exists (a' +:+ a), (b +:+ b'). by rewrite !append_assoc.
Qed.

Lemma contains_append_l (n a b : string) :
  contains n a = true → contains n (a +:+ b) = true.
Proof.
  rewrite !contains_iff. intros (x & y & ->).
  exists x, (y +:+ b). by rewrite !append_assoc.
Qed.

Lemma string_of_app (l1 l2 : list ascii) :
  string_of_list_ascii (l1 ++ l2)
  = string_of_list_ascii l1 +:+ string_of_list_ascii l2.
Proof.
  induction l1 as [|c l1 IH]; simpl; [done|]. rewrite append_cons. by f_equal.
Qed.

Lemma chars_append (a b : string) :
  list_ascii_of_string (a +:+ b)
  = list_ascii_of_string a ++ list_ascii_of_string b.
Proof.
  induction a as [|c a IH]; [done|]. rewrite append_cons. simpl. by f_equal.
Qed.

End StringFacts.

Module ReSound.
Import Re.

Section Sound.

Variable whole : list ascii.
Variable Q : ascii → Prop.

Lemma rmatch_sound {R : Type} (r : re) :
  groups_in Q r →
  ∀ (s : list ascii) g (k : list ascii → option string → option R) x pre,
    whole = pre ++ s →
    good whole Q g →
    rmatch r s g k = Some x →
    ∃ c s' g',
      s = c ++ s'
      ∧ Forall (λ a, may_consume r a = true) c
      ∧ good whole Q g'
      ∧ (is_Some g ∨ captures r = true → is_Some g')
      ∧ k s' g' = Some x.
Proof.
  induction r as [|c0|neg items|r1 IH1 r2 IH2|r1 IH1 r2 IH2|r1 IH1|r1 IH1];
    intros Hok s g k x pre Hw Hg Hm; simpl in Hm.
  - exists [], s, g. split_and!; try done. by intros [?|?].
  - destruct s as [|a s']; [done|].
    destruct (Ascii.eqb a c0) eqn:Ha; [|done].
    exists [a], s', g. split_and!; try done.
    + by constructor.
    + by intros [?|?].
  - destruct s as [|a s']; [done|].
    destruct (cls_has neg items a) eqn:Ha; [|done].
    exists [a], s', g. split_and!; try done.
    + by constructor.
    + by intros [?|?].
  - destruct Hok as [Hok1 Hok2].
    destruct (IH1 Hok1 _ _ _ _ pre Hw Hg Hm)
      as (c1 & s1 & g1 & -> & Hc1 & Hg1 & Hs1 & Hm1).
    destruct (IH2 Hok2 _ _ _ _ (pre ++ c1) ltac:(by rewrite <- app_assoc) Hg1 Hm1)
      as (c2 & s2 & g2 & -> & Hc2 & Hg2 & Hs2 & Hm2).
    exists (c1 ++ c2), s2, g2. rewrite <- app_assoc.
    split_and!; try done.
    + apply Forall_app. split.
      * eapply Forall_impl; [exact Hc1|]. simpl. by intros a ->.
      * eapply Forall_impl; [exact Hc2|]. simpl. intros a ->. apply orb_true_r.
    + simpl. rewrite orb_true_iff. intros [Hsome|[H1|H2]].
      * apply Hs2. left. apply Hs1. by left.
      * apply Hs2. left. apply Hs1. by right.
      * apply Hs2. by right.
  - destruct Hok as [Hok1 Hok2].
    destruct (rmatch r1 s g k) as [y|] eqn:H1.
    + injection Hm as ->.
      destruct (IH1 Hok1 _ _ _ _ pre Hw Hg H1)
        as (c1 & s1 & g1 & -> & Hc1 & Hg1 & Hs1 & Hm1).
      exists c1, s1, g1. split_and!; try done.
      * eapply Forall_impl; [exact Hc1|]. simpl. by intros a ->.
      * simpl. rewrite andb_true_iff. intros [?|[? _]]; apply Hs1; auto.
    + destruct (IH2 Hok2 _ _ _ _ pre Hw Hg Hm)
        as (c2 & s2 & g2 & -> & Hc2 & Hg2 & Hs2 & Hm2).
      exists c2, s2, g2. split_and!; try done.
      * eapply Forall_impl; [exact Hc2|]. simpl. intros a ->. apply orb_true_r.
      * simpl. rewrite andb_true_iff. intros [?|[_ ?]]; apply Hs2; auto.
  - simpl in Hok. revert Hm. generalize (length s) at 1. intros n.
    revert s g pre Hw Hg.
    induction n as [|n IHn]; intros s g pre Hw Hg Hm.
    + exists [], s, g. split_and!; try done. by intros [?|?].
    + match type of Hm with
      | match ?m with _ => _ end = _ => destruct m as [y|] eqn:H1
      end.
      * injection Hm as ->.
        destruct (IH1 Hok _ _ _ _ pre Hw Hg H1)
          as (c1 & s1 & g1 & -> & Hc1 & Hg1 & Hs1 & Hm1).
        destruct (length s1 <? length (c1 ++ s1))%nat; [|done].
        destruct (IHn s1 g1 (pre ++ c1) ltac:(by rewrite <- app_assoc) Hg1 Hm1)
          as (c2 & s2 & g2 & -> & Hc2 & Hg2 & Hs2 & Hm2).
        exists (c1 ++ c2), s2, g2. rewrite <- app_assoc.
        split_and!; try done.
        -- apply Forall_app. by split.
        -- intros [Hsome|?]; [|done]. apply Hs2. left. apply Hs1. by left.
      * exists [], s, g. split_and!; try done. by intros [?|?].
  - destruct Hok as [HQ Hok].
    destruct (IH1 Hok _ _ _ _ pre Hw Hg Hm)
      as (c1 & s1 & g1 & -> & Hc1 & Hg1 & Hs1 & Hm1).
    rewrite length_app, Nat.add_sub, take_app_length in Hm1.
    eexists c1, s1, _. split_and!; [done | exact Hc1 | | | exact Hm1].
    + intros t [= <-]. rewrite list_ascii_of_string_of_list_ascii. split.
      * by exists pre, s1.
      * eapply Forall_impl; [exact Hc1|]. exact HQ.
    + intros _. by eexists.
Qed.

Lemma search_from_sound (r : re) (s : list ascii) (g : option string) :
  groups_in Q r →
  ∀ pre, whole = pre ++ s →
    search_from r s = Some g →
    good whole Q g ∧ (captures r = true → is_Some g).
Proof.
  intros Hok.
  assert (Hnone : good whole Q None) by (intros t Ht; discriminate).
  induction s as [|a s IH]; intros pre Hw; simpl.
  - destruct (rmatch r [] None (λ _ g0, Some g0)) as [y|] eqn:H1; [|done].
    intros [= ->].
    destruct (rmatch_sound r Hok _ _ _ _ pre Hw Hnone H1)
      as (c & s' & g' & _ & _ & Hg & Hs & [= <-]).
    split; [done | auto].
  - destruct (rmatch r (a :: s) None (λ _ g0, Some g0)) as [y|] eqn:H1.
    + intros [= ->].
      destruct (rmatch_sound r Hok _ _ _ _ pre Hw Hnone H1)
        as (c & s' & g' & _ & _ & Hg & Hs & [= <-]).
      split; [done | auto].
    + apply (IH (pre ++ [a])). by rewrite <- app_assoc.
Qed.

End Sound.

(** A match of a literal consumes that literal. *)
Lemma rmatch_lit {R : Type} (p : string) :
  ∀ (s : list ascii) g (k : list ascii → option string → option R) x,
    rmatch (lit p) s g k = Some x →
    ∃ s', s = list_ascii_of_string p ++ s' ∧ k s' g = Some x.
Proof.
  induction p as [|c p IH]; intros s g k x Hm.
  - by exists s.
  - assert (Hc : ∀ s0 (k0 : list ascii → option string → option R),
               rmatch (Chr c) s0 g k0 = Some x →
               ∃ s', s0 = c :: s' ∧ k0 s' g = Some x).
    { intros [|a s0] k0; simpl; [done|].
      destruct (Ascii.eqb_spec a c) as [->|]; [|done]. by eexists. }
    destruct p as [|d p].
    + simpl in Hm. by apply Hc in Hm.
    + change (rmatch (Chr c) s g
                (λ s' g', rmatch (lit (String d p)) s' g' k) = Some x) in Hm.
      apply Hc in Hm as (s1 & -> & Hm).
      apply IH in Hm as (s2 & -> & Hm). by exists s2.
Qed.

End ReSound.

Import StringFacts.

(** ** Facts about [extract_image_url] *)

Section ExtractFacts.

Lemma search_sound (Q : ascii → Prop) (r : Re.re) (html : string)
    (g : option string) :
  groups_in Q r →
  Re.search r html = Some g →
  (captures r = true → is_Some g)
  ∧ ∀ t, g = Some t →
      contains t html = true ∧ Forall Q (list_ascii_of_string t).
Proof.
  intros Hok Hs.
  destruct (ReSound.search_from_sound (list_ascii_of_string html) Q r
              (list_ascii_of_string html) g Hok [] eq_refl Hs) as [Hg Hc].
  split; [done|]. intros t Ht. destruct (Hg t Ht) as [(a & b & Hw) HQ].
  split; [|done]. apply contains_iff.
  exists (string_of_list_ascii a), (string_of_list_ascii b).
  rewrite <- (string_of_list_ascii_of_string html), Hw.
  by rewrite !string_of_app, string_of_list_ascii_of_string.
Qed.

Lemma first_match_search (patterns : list Re.re) (html u : string) :
  first_match patterns html = Some u →
  ∃ p, p ∈ patterns ∧ Re.search p html = Some (Some u).
Proof.
  induction patterns as [|p ps IH]; simpl; [done|].
  destruct (Re.search p html) as [g|] eqn:Hs.
  - intros ->. exists p. split; [by left | done].
  - intros (q & Hq & Hsq)%IH. exists q. split; [by right | done].
Qed.

Lemma match_prefixed_group (p : string) (R : Re.re) (s : list ascii)
    (g : option string) :
  groups_in (λ _, True) R →
  Re.rmatch (Re.Group (Re.Seq (Re.lit p) R)) s None (λ _ g0, Some g0) = Some g →
  ∃ t, g = Some (p +:+ t).
Proof.
  intros Hok H1. simpl in H1.
  apply ReSound.rmatch_lit in H1 as (s1 & Hs & H1).
  assert (Hnone : good s1 (λ _, True) None)
    by (intros t Ht; discriminate).
  destruct (ReSound.rmatch_sound s1 (λ _, True) R Hok _ _ _ _ [] eq_refl Hnone H1)
    as (c & s' & g' & -> & _ & _ & _ & [= <-]).
  rewrite Hs.
  rewrite !length_app, Nat.add_assoc, Nat.add_sub.
  rewrite (app_assoc _ c s'), <- length_app, take_app_length.
  rewrite string_of_app, string_of_list_ascii_of_string. by eexists.
Qed.

Lemma search_prefixed_group (p : string) (R : Re.re) (s : list ascii)
    (g : option string) :
  groups_in (λ _, True) R →
  Re.search_from (Re.Group (Re.Seq (Re.lit p) R)) s = Some g →
  ∃ t, g = Some (p +:+ t).
Proof.
  intros Hok. revert g.
  induction s as [|a s IH]; intros g; cbn [Re.search_from];
    destruct (Re.rmatch _ _ None _) as [y|] eqn:H1; try done.
  - intros [= ->]. by eapply match_prefixed_group.
  - intros [= ->]. by eapply match_prefixed_group.
  - apply IH.
Qed.

Lemma og_image_groups : groups_in no_quote og_image_re.
Proof.
  simpl. split_and!; try done.
  intros a. unfold no_quote.
  destruct a as [[] [] [] [] [] [] [] []]; vm_compute; congruence.
Qed.

Lemma fallback_groups (p : Re.re) :
  p ∈ [perfume_social_re; perfumes_re; perfume_bottle_re] →
  groups_in no_quote p.
Proof.
  rewrite !elem_of_cons, elem_of_nil.
  intros [->|[->|[->|[]]]]; simpl; (split_and!; try done);
    intros a; unfold no_quote;
    destruct a as [[] [] [] [] [] [] [] []]; vm_compute; congruence.
Qed.

Lemma fallback_prefixed (p : Re.re) (html u : string) :
  p ∈ [perfume_social_re; perfumes_re; perfume_bottle_re] →
  Re.search p html = Some (Some u) →
  ∃ pre t, pre ∈ [social_prefix; perfumes_prefix; bottle_prefix]
           ∧ u = pre +:+ t.
Proof.
  rewrite !elem_of_cons, elem_of_nil.
  intros [->|[->|[->|[]]]] Hs;
    eapply search_prefixed_group in Hs as (t & [= ->]);
    try (simpl; tauto).
  - exists social_prefix, t. split; [by left | done].
  - exists perfumes_prefix, t. split; [by right; left | done].
  - exists bottle_prefix, t. split; [by right; right; left | done].
Qed.

(** Where a result of [extract_image_url] comes from. *)
Lemma extract_cases (html u : string) :
  extract_image_url html = Returns (Some u) →
  (Re.search og_image_re html = Some (Some u)
   ∧ contains "404" u = false ∧ contains "parfumo" u = true)
  ∨ ∃ p, p ∈ [perfume_social_re; perfumes_re; perfume_bottle_re]
         ∧ Re.search p html = Some (Some u).
Proof.
  assert (Hfall : Returns (first_match
            [perfume_social_re; perfumes_re; perfume_bottle_re] html)
          = Returns (Some u) →
          ∃ p, p ∈ [perfume_social_re; perfumes_re; perfume_bottle_re]
               ∧ Re.search p html = Some (Some u)).
  { intros [= Hf]. by apply first_match_search. }
  unfold extract_image_url.
  destruct (Re.search og_image_re html) as [[url|]|] eqn:Hog;
    [| done | by right; apply Hfall].
  destruct (negb (contains "404" url) && contains "parfumo" url) eqn:Hok;
    [|by right; apply Hfall].
  intros [= ->]. left. apply andb_true_iff in Hok as [H404 Hp].
  apply negb_true_iff in H404. done.
Qed.

End ExtractFacts.

(** ** Facts about the fetcher and the loop *)

Section MoreFetcherFacts.

Context {codec : JsonCodec}.
Variable extract : string → outcome (option string).
Variable E : env.

Lemma fetch_from_trace (n0 : nat) (url : string) :
  ∀ (attempt : Z) (w : world),
    ∃ n img,
      (n ≤ n0)%nat
      ∧ fetch_from extract E n0 url attempt w
        = (Returns img, {| disk := disk w;
                           trace := trace w ++ attempt_trace url attempt n |}).
Proof.
  induction n0 as [|n0 IH]; intros attempt w; simpl.
  - destruct (try_fetch extract E url w) as [img|[code|cls]];
      [exists O, img | | exists O, None]; try (split; [lia | reflexivity]).
    destruct (blocked code && (attempt <? MAX_RETRIES));
      exists O, None; (split; [lia | reflexivity]).
  - destruct (try_fetch extract E url w) as [img|[code|cls]];
      [exists O, img | | exists O, None]; try (split; [lia | reflexivity]).
    destruct (blocked code && (attempt <? MAX_RETRIES));
      [|exists O, None; split; [lia | reflexivity]].
    destruct (IH (attempt + 1)
                (emit (Sleep (Backoff attempt)) (emit (Attempt url attempt) w)))
      as (n & img & Hn & ->).
    exists (S n), img. split; [lia|]. simpl. by rewrite <- !app_assoc.
Qed.

Lemma attempts_attempt_trace (url : string) (attempt : Z) (n : nat) :
  attempts (attempt_trace url attempt n) = S n.
Proof.
  revert attempt. induction n as [|n IH]; intros attempt; [done|].
  change (S (attempts (attempt_trace url (attempt + 1) n)) = S (S n)).
  by rewrite IH.
Qed.

Lemma paced_attempt_trace (url : string) (attempt : Z) (n : nat) :
  paced true (attempt_trace url attempt n) = true.
Proof.
  revert attempt. induction n as [|n IH]; intros attempt; [done|]. apply IH.
Qed.

Lemma first_attempts_later (u url : string) (n : nat) :
  ∀ attempt, 0 < attempt → first_attempts u (attempt_trace url attempt n) = 0%nat.
Proof.
  induction n as [|n IH]; intros a Ha; unfold first_attempts; simpl;
    rewrite (proj2 (Z.eqb_neq a 0)) by lia; rewrite andb_false_r; [done|].
  apply IH. lia.
Qed.

Lemma first_attempts_attempt_trace (u url : string) (n : nat) :
  first_attempts u (attempt_trace url 0 n)
  = if String.eqb url u then 1%nat else 0%nat.
Proof.
  destruct n as [|n].
  - unfold first_attempts. simpl. by destruct (String.eqb url u).
  - pose proof (first_attempts_later u url n 1 ltac:(lia)) as Hrest.
    change (first_attempts u
              ([Attempt url 0; Sleep (Backoff 0)] ++ attempt_trace url 1 n)
            = if String.eqb url u then 1%nat else 0%nat).
    unfold first_attempts in *. rewrite List.filter_app, length_app, Hrest.
    simpl. by destruct (String.eqb url u).
Qed.

End MoreFetcherFacts.

Section MoreLoopFacts.

Context {codec : JsonCodec}.
Variable E : env.

Lemma paced_mono (evs : list event) :
  paced false evs = true → paced true evs = true.
Proof. by destruct evs as [|[]]. Qed.

Lemma paced_app (b : bool) (l1 l2 : list event) :
  paced b l1 = true → paced false l2 = true → paced b (l1 ++ l2) = true.
Proof.
  revert b. induction l1 as [|e l1 IH]; intros b H1 H2.
  - destruct b; [by apply paced_mono | done].
  - destruct e as [u a| |k|d]; simpl in *; try by apply IH.
    apply andb_true_iff in H1 as [-> H1]. by apply IH.
Qed.

Lemma first_attempts_app (u : string) (l1 l2 : list event) :
  first_attempts u (l1 ++ l2)
  = (first_attempts u l1 + first_attempts u l2)%nat.
Proof. unfold first_attempts. by rewrite List.filter_app, length_app. Qed.

Lemma iteration_tail_quiet (url u : string) (img : option string) (st : locals) :
  paced false (iteration_tail url img st) = true
  ∧ first_attempts u (iteration_tail url img st) = 0%nat.
Proof.
  unfold iteration_tail. by destruct (cooled img st), (saved st).
Qed.

(** The iteration, by the result of its fetch. *)
Lemma iteration_eq (url : string) (st : locals) (w w2 : world)
    (img : option string) :
  fetch_image_url extract_image_url E url 0 (emit (Sleep BaseDelay) w)
    = (Returns img, w2) →
  iteration E url st w
  = (Returns (after_iteration url img st),
     {| disk := if saved st
                then Some (json_dumps (PDict (results (after_iteration url img st))))
                else disk w2;
        trace := trace w2 ++ iteration_tail url img st |}).
Proof.
  intros Hf. unfold iteration. rewrite Hf.
  unfold after_iteration, iteration_tail, cooled, saved.
  destruct w2 as [d2 t2].
  destruct (truthy img); [|destruct (5 <=? consecutive_fails st + 1)];
    simpl; destruct ((completed st + 1) mod BATCH_SAVE_EVERY =? 0);
    unfold flush, emit; simpl; rewrite ?app_nil_r, <- ?app_assoc; reflexivity.
Qed.

(** The whole of an iteration. *)
Lemma iteration_full (url : string) (st : locals) (w : world) :
  ∃ n img,
    iteration E url st w
    = (Returns (after_iteration url img st),
       {| disk := if saved st
                  then Some (json_dumps
                               (PDict (results (after_iteration url img st))))
                  else disk w;
          trace := trace w ++ Sleep BaseDelay :: attempt_trace url 0 n
                           ++ iteration_tail url img st |})
    ∧ (n ≤ 2)%nat
    ∧ truthy img = match img with Some _ => true | None => false end
    ∧ (∀ r, img = Some r →
         ∃ h html, transport E h url = Returns html
                   ∧ extract_image_url html = Returns (Some r)).
Proof.
  destruct (fetch_from_trace extract_image_url E 2 url 0
              (emit (Sleep BaseDelay) w)) as (n & img & Hn & Hf).
  change (fetch_from extract_image_url E 2 url 0 (emit (Sleep BaseDelay) w))
    with (fetch_image_url extract_image_url E url 0 (emit (Sleep BaseDelay) w))
    in Hf.
  destruct (fetch_image_url_shape extract_image_url E url 0
              (emit (Sleep BaseDelay) w)) as (img' & evs & Hf' & _ & Himg).
  rewrite Hf in Hf'. injection Hf' as <- _.
  assert (Hprov : ∀ r, img = Some r →
            ∃ h html, transport E h url = Returns html
                      ∧ extract_image_url html = Returns (Some r)).
  { intros r ->. by apply Himg. }
  exists n, img. rewrite (iteration_eq url st w _ img Hf). simpl.
  split_and!; [by rewrite <- !app_assoc | done | | done].
  destruct img as [[|c r]|]; [|done|done].
  destruct (Hprov EmptyString eq_refl) as (h & html & _ & Hx).
  by apply extract_image_url_nonempty in Hx.
Qed.

(** The whole of the loop: it returns, every attempt of it comes right
    after a sleep, each target gets one first attempt per occurrence, and
    the entry of a target is what its fetch returned. *)
Lemma loop_full (urls : list string) :
  ∀ (st : locals) (w : world),
    ∃ st' w' evs,
      loop E urls st w = (Returns st', w')
      ∧ trace w' = trace w ++ evs
      ∧ paced false evs = true
      ∧ (∀ u, first_attempts u evs
              = length (List.filter (λ v, String.eqb v u) urls))
      ∧ (∀ u, u ∈ urls →
           ∃ img, results st' !! u = Some (py_of_img img)
                  ∧ ∀ r, img = Some r →
                      ∃ h html, transport E h u = Returns html
                                ∧ extract_image_url html = Returns (Some r)).
Proof.
  induction urls as [|url rest IH]; intros st w.
  - exists st, w, []. rewrite app_nil_r.
    split_and!; try done. by intros u ?%elem_of_nil.
  - destruct (iteration_full url st w) as (n & img & Hit & _ & _ & Hprov).
    simpl. rewrite Hit.
    match goal with
    | |- context [loop E rest ?s ?x] =>
        destruct (IH s x) as (st' & w' & evs & Hl & Ht & Hp & Hfa & Hval)
    end.
    exists st', w',
      ((Sleep BaseDelay :: attempt_trace url 0 n ++ iteration_tail url img st)
         ++ evs).
    split; [exact Hl|].
    split; [rewrite Ht; simpl; rewrite <- ?app_assoc; simpl;
            by rewrite <- ?app_assoc|].
    split; [|split].
    + apply paced_app; [|done]. simpl. apply paced_app.
      * apply paced_attempt_trace.
      * apply iteration_tail_quiet with (u := url).
    + intros u. rewrite first_attempts_app, Hfa.
      change (Sleep BaseDelay :: attempt_trace url 0 n ++ iteration_tail url img st)
        with ([Sleep BaseDelay] ++ attempt_trace url 0 n
                ++ iteration_tail url img st).
      rewrite !first_attempts_app, first_attempts_attempt_trace.
      rewrite (proj2 (iteration_tail_quiet url u img st)).
      simpl. destruct (String.eqb url u); simpl; lia.
    + intros u Hu. destruct (decide (u ∈ rest)) as [Hr|Hr]; [by apply Hval|].
      apply elem_of_cons in Hu as [->|Hu]; [|done].
      destruct (loop_inv E rest (after_iteration url img st)
                  {| disk := if saved st
                             then Some (json_dumps
                                          (PDict (results (after_iteration url img st))))
                             else disk w;
                     trace := trace w ++ Sleep BaseDelay :: attempt_trace url 0 n
                                      ++ iteration_tail url img st |})
        as (st2 & w2 & evs2 & Hl2 & _ & _ & _ & Hout & _).
      rewrite Hl in Hl2. injection Hl2 as <- <-.
      exists img. rewrite (Hout url Hr). simpl.
      by rewrite lookup_insert_eq.
Qed.

End MoreLoopFacts.

Section MoreRunFacts.

Context {codec : JsonCodec}.
Variable E : env.

Lemma elem_of_catalog_fold (data : list item) (acc : gset string) (u : string) :
  u ∈ foldl (λ urls it,
               if truthy (canonical_url it)
               then match canonical_url it with
                    | Some v => urls ∪ {[v]}
                    | None => urls
                    end
               else urls) acc data
  ↔ u ∈ acc ∨ (u ≠ EmptyString ∧ ∃ x, x ∈ data ∧ canonical_url x = Some u).
Proof.
  revert acc. induction data as [|x data IH]; intros acc; simpl.
  - split; [by left|]. intros [?|(_ & x & Hin & _)]; [done|].
    by apply elem_of_nil in Hin.
  - rewrite IH. destruct x as [[v|]]; simpl.
    + destruct (String.eqb_spec v "") as [->|Hv]; simpl.
      * split.
        -- intros [?|(Hu & x & Hin & Hit)]; [by left|].
           right. split; [done|]. exists x. split; [by right | done].
        -- intros [?|(Hu & x & Hin & Hit)]; [by left|].
           apply elem_of_cons in Hin as [->|Hin].
           ++ simpl in Hit. congruence.
           ++ right. split; [done|]. by exists x.
      * rewrite elem_of_union, elem_of_singleton. split.
        -- intros [[?| ->]|(Hu & x & Hin & Hit)].
           ++ by left.
           ++ right. split; [done|].
              exists {| canonical_url := Some v |}. split; [by left | done].
           ++ right. split; [done|]. exists x. split; [by right | done].
        -- intros [?|(Hu & x & Hin & Hit)]; [by left; left|].
           apply elem_of_cons in Hin as [->|Hin].
           ++ simpl in Hit. injection Hit as ->. left. by right.
           ++ right. split; [done|]. by exists x.
    + split.
      * intros [?|(Hu & x & Hin & Hit)]; [by left|].
        right. split; [done|]. exists x. split; [by right | done].
      * intros [?|(Hu & x & Hin & Hit)]; [by left|].
        apply elem_of_cons in Hin as [->|Hin]; [done|].
        right. split; [done|]. by exists x.
Qed.

Lemma NoDup_to_scrape (urls : gset string) (existing : gmap string pyval) :
  shuffles E → NoDup (to_scrape E urls existing).
Proof.
  intros Hsh. unfold to_scrape. rewrite (Hsh _).
  apply NoDup_filter, NoDup_elements.
Qed.

Lemma count_NoDup (u : string) (l : list string) :
  NoDup l →
  length (List.filter (λ v, String.eqb v u) l)
  = if decide (u ∈ l) then 1%nat else 0%nat.
Proof.
  induction 1 as [|v l Hv _ IH].
  - simpl. destruct (decide (u ∈ [])) as [Hu|Hu];
      [by apply elem_of_nil in Hu | done].
  - cbn [List.filter]. destruct (String.eqb_spec v u) as [->|Hne];
      cbn [length]; rewrite IH;
      destruct (decide (u ∈ l)) as [Hl|Hl];
      destruct (decide (u ∈ _ :: l)) as [Hc|Hc]; try done.
    + destruct Hc. by left.
    + destruct Hc. by right.
    + apply elem_of_cons in Hc as [->|Hc]; done.
Qed.

Lemma resolved_subset_idemp (raw : gmap string pyval) :
  resolved_subset (resolved_subset raw) = resolved_subset raw.
Proof.
  apply map_eq. intros k. apply option_eq. intros v.
  rewrite !resolved_subset_Some. tauto.
Qed.

Lemma resolved_subset_insert (m : gmap string pyval) (k : string)
    (img : option string) :
  m !! k = None →
  size (resolved_subset (<[k := py_of_img img]> m))
  = (size (resolved_subset m)
     + match img with Some _ => 1 | None => 0 end)%nat.
Proof.
  intros Hk.
  assert (Hf : resolved_subset m !! k = None).
  { apply resolved_subset_None. intros (v & Hv & _). congruence. }
  unfold resolved_subset in *. destruct img as [r|]; simpl.
  - rewrite map_filter_insert_True by done.
    rewrite map_size_insert_None by done. lia.
  - rewrite map_filter_insert_False by (simpl; congruence).
    rewrite map_filter_delete, delete_id by done. lia.
Qed.

(** [found] counts the entries that are not null. *)
Lemma loop_found (urls : list string) :
  ∀ (st st' : locals) (w w' : world),
    NoDup urls →
    (∀ u, u ∈ urls → results st !! u = None) →
    found st = Z.of_nat (size (resolved_subset (results st))) →
    loop E urls st w = (Returns st', w') →
    found st' = Z.of_nat (size (resolved_subset (results st'))).
Proof.
  induction urls as [|url rest IH]; intros st st' w w' Hnd Hfresh Hfound Hl.
  - simpl in Hl. by injection Hl as <- _.
  - apply NoDup_cons in Hnd as [Hurl Hnd].
    destruct (iteration_full E url st w) as (n & img & Hit & _ & Htr & _).
    simpl in Hl. rewrite Hit in Hl.
    eapply IH; [exact Hnd | | | exact Hl].
    + intros u Hu. simpl. rewrite lookup_insert_ne by (intros ->; done).
      apply Hfresh. by right.
    + simpl. rewrite Htr.
      rewrite resolved_subset_insert by (apply Hfresh; by left).
      destruct img; lia.
Qed.

(** Between two multiples of [BATCH_SAVE_EVERY] the loop leaves the file
    alone. *)
Lemma loop_keeps_disk (urls : list string) :
  ∀ (st : locals) (w : world),
    completed st mod BATCH_SAVE_EVERY + Z.of_nat (length urls) < BATCH_SAVE_EVERY →
    disk (loop E urls st w).2 = disk w.
Proof.
  induction urls as [|url rest IH]; intros st w Hlen; [done|].
  destruct (iteration_full E url st w) as (n & img & Hit & _).
  simpl. rewrite Hit.
  assert (Hmod : (completed st + 1) mod BATCH_SAVE_EVERY
                 = completed st mod BATCH_SAVE_EVERY + 1).
  { unfold BATCH_SAVE_EVERY in *. simpl length in Hlen.
    pose proof (Z.mod_pos_bound (completed st) 20 ltac:(lia)).
    rewrite Zplus_mod. rewrite (Z.mod_small 1) by lia.
    apply Z.mod_small. lia. }
  rewrite IH.
  - simpl. unfold saved. rewrite Hmod.
    pose proof (Z.mod_pos_bound (completed st) BATCH_SAVE_EVERY ltac:(done)).
    by rewrite (proj2 (Z.eqb_neq _ 0)) by lia.
  - simpl completed. rewrite Hmod. simpl length in Hlen. lia.
Qed.

End MoreRunFacts.

Section MainFacts.

Context {codec : JsonCodec}.
Variable E : env.

(** A run that has something to scrape, in full. *)
Lemma main_full (data : list item) (d : option text)
    (existing : gmap string pyval) :
  load_existing d = Returns existing →
  to_scrape E (catalog_urls data) existing ≠ [] →
  ∃ st w evs0 evs,
    loop E (to_scrape E (catalog_urls data) existing) (init_locals existing)
      (warm_up E {| disk := d; trace := [] |}) = (Returns st, w)
    ∧ main E data d = (Returns (), flush (results st) w)
    ∧ trace w = evs0 ++ evs
    ∧ (evs0 = [Warmup] ∨ evs0 = [Warmup; Sleep SessionPause])
    ∧ paced false evs = true
    ∧ (∀ u, first_attempts u evs
            = length (List.filter (λ v, String.eqb v u)
                        (to_scrape E (catalog_urls data) existing)))
    ∧ (∀ u, u ∈ to_scrape E (catalog_urls data) existing →
         ∃ img, results st !! u = Some (py_of_img img)
                ∧ ∀ r, img = Some r →
                    ∃ h html, transport E h u = Returns html
                              ∧ extract_image_url html = Returns (Some r))
    ∧ (∀ k, k ∉ to_scrape E (catalog_urls data) existing →
            results st !! k = existing !! k).
Proof.
  intros Hload Hne.
  destruct (main_cases E data d existing Hload)
    as [[Hnil _]|(_ & st & w & _ & Hl & Hm & _ & _ & _ & Hout)]; [done|].
  destruct (loop_full E (to_scrape E (catalog_urls data) existing)
              (init_locals existing) (warm_up E {| disk := d; trace := [] |}))
    as (st2 & w2 & evs & Hl2 & Ht & Hp & Hfa & Hval).
  rewrite Hl in Hl2. injection Hl2 as <- <-.
  exists st, w, (trace (warm_up E {| disk := d; trace := [] |})), evs.
  split_and!; try done.
  unfold warm_up. simpl.
  destruct (transport E [] homepage); simpl; auto.
Qed.

End MainFacts.

(** * The further properties *)

(** ** [extract_image_url] *)

Lemma extract_sound (html u : string) :
  extract_image_url html = Returns (Some u) →
  contains u html = true ∧ Forall no_quote (list_ascii_of_string u).
Proof.
  intros [(Hs & _)|(p & Hp & Hs)]%extract_cases.
  - destruct (search_sound no_quote _ _ _ og_image_groups Hs) as [_ H].
    exact (H u eq_refl).
  - destruct (search_sound no_quote _ _ _ (fallback_groups p Hp) Hs) as [_ H].
    exact (H u eq_refl).
Qed.

Lemma extract_mentions_parfumo (html u : string) :
  extract_image_url html = Returns (Some u) → contains "parfumo" u = true.
Proof.
  intros [(_ & _ & Hp)|(p & Hp & Hs)]%extract_cases; [done|].
  destruct (fallback_prefixed p html u Hp Hs) as (pre & t & Hpre & ->).
  rewrite !elem_of_cons, elem_of_nil in Hpre.
  destruct Hpre as [->|[->|[->|[]]]]; by apply contains_append_l.
Qed.

Lemma extract_no_type_error (html : string) (e : exn) :
  extract_image_url html ≠ Raises e.
Proof.
  unfold extract_image_url.
  destruct (Re.search og_image_re html) as [[url|]|] eqn:Hog.
  - by destruct (negb (contains "404" url) && contains "parfumo" url).
  - destruct (search_sound no_quote _ _ _ og_image_groups Hog) as [Hc _].
    destruct Hc as (t & Ht); [by vm_compute | done].
  - done.
Qed.

(** X1.  [extract_image_url] raises nothing, whatever the page, and what
    it returns is [None] or a string that is not empty. *)
Theorem extract_image_url_returns (html : string) :
  ∃ r, extract_image_url html = Returns r ∧ r ≠ Some EmptyString.
Proof.
  destruct (extract_image_url html) as [[u|]|e] eqn:Hx.
  - exists (Some u). split; [done|]. intros [= ->].
    by apply extract_image_url_nonempty in Hx.
  - by exists None.
  - by apply extract_no_type_error in Hx.
Qed.

(** X2.  A reference [extract_image_url] returns is a piece of the page,
    and holds neither quote character. *)
Theorem extracted_reference_is_in_page (html u : string) :
  extract_image_url html = Returns (Some u) →
  contains u html = true
  ∧ Forall (λ a, a ≠ dquote ∧ a ≠ squote) (list_ascii_of_string u).
Proof.
  intros [Hin HQ]%extract_sound. split; [done|].
  eapply Forall_impl; [exact HQ|]. intros a Ha.
  unfold no_quote, is_quote in Ha. apply orb_false_iff in Ha as [H1 H2].
  split; intros ->; by rewrite Ascii.eqb_refl in *.
Qed.

Lemma extracted_reference_is_in_page_witness :
  contains ref_a page_a = true
  ∧ Forall (λ a, a ≠ dquote ∧ a ≠ squote) (list_ascii_of_string ref_a).
Proof.
  apply (extracted_reference_is_in_page page_a ref_a).
  vm_compute. reflexivity.
Defined.

(** X3.  A reference [extract_image_url] returns either has no 404 in it
    and mentions parfumo (the [og:image] address), or starts with one of
    the three media prefixes; in both cases it mentions parfumo. *)
Theorem extracted_reference_form (html u : string) :
  extract_image_url html = Returns (Some u) →
  ((contains "404" u = false ∧ contains "parfumo" u = true)
   ∨ String.prefix social_prefix u = true
   ∨ String.prefix perfumes_prefix u = true
   ∨ String.prefix bottle_prefix u = true)
  ∧ contains "parfumo" u = true.
Proof.
  intros Hx. split; [|by eapply extract_mentions_parfumo].
  apply extract_cases in Hx as [(_ & H404 & Hp)|(p & Hp & Hs)]; [by left|].
  destruct (fallback_prefixed p html u Hp Hs) as (pre & t & Hpre & ->).
  rewrite !elem_of_cons, elem_of_nil in Hpre.
  destruct Hpre as [->|[->|[->|[]]]]; rewrite prefix_append; tauto.
Qed.

Lemma extracted_reference_form_witness :
  ((contains "404" ref_a = false ∧ contains "parfumo" ref_a = true)
   ∨ String.prefix social_prefix ref_a = true
   ∨ String.prefix perfumes_prefix ref_a = true
   ∨ String.prefix bottle_prefix ref_a = true)
  ∧ contains "parfumo" ref_a = true.
Proof.
  apply (extracted_reference_form page_a ref_a). vm_compute. reflexivity.
Defined.

(** X4.  A page that does not mention parfumo has no reference:
    [extract_image_url] returns [None] for it. *)
Theorem page_without_parfumo_has_no_reference (html : string) :
  contains "parfumo" html = false →
  extract_image_url html = Returns None.
Proof.
  intros Hno. destruct (extract_image_url html) as [[u|]|e] eqn:Hx; [|done|].
  - exfalso. pose proof (extract_mentions_parfumo html u Hx) as Hp.
    destruct (extract_sound html u Hx) as [Hin _].
    by rewrite (contains_trans _ _ _ Hp Hin) in Hno.
  - by apply extract_no_type_error in Hx.
Qed.

Lemma page_without_parfumo_has_no_reference_witness :
  extract_image_url "<html><img src='https://x/a.jpg'></html>" = Returns None.
Proof.
  apply page_without_parfumo_has_no_reference. vm_compute. reflexivity.
Defined.

(** ** [fetch_image_url] *)

(** X5.  Whatever the network and the extractor do, a fetch from attempt
    [attempt] returns after one attempt and at most
    [MAX_RETRIES - attempt] retries, each retry after a back-off sleep of
    the attempt before it; it adds nothing else to the trace and leaves the
    file alone.  From attempt 0 that is at most three requests. *)
Theorem fetch_attempts_are_bounded {codec : JsonCodec}
    (extract : string → outcome (option string)) (E : env)
    (url : string) (attempt : Z) (w : world) :
  ∃ n img w',
    fetch_image_url extract E url attempt w = (Returns img, w')
    ∧ since w w' = attempt_trace url attempt n
    ∧ (n ≤ Z.to_nat (MAX_RETRIES - attempt))%nat
    ∧ attempts (since w w') = S n
    ∧ (attempt = 0 → (attempts (since w w') ≤ 3)%nat)
    ∧ disk w' = disk w.
Proof.
  destruct (fetch_from_trace extract E (Z.to_nat (MAX_RETRIES - attempt))
              url attempt w) as (n & img & Hn & Hf).
  eexists n, img, _. split; [exact Hf|].
  rewrite (since_app w _ (attempt_trace url attempt n)) by done.
  rewrite attempts_attempt_trace.
  split_and!; try done.
  intros ->. unfold MAX_RETRIES in Hn. simpl in Hn. lia.
Qed.

(** ** [main] *)

(** X6.  The targets of a catalog are the addresses of its records that
    are not empty: a record without address or with an empty one adds
    nothing, and an address that occurs twice is one target. *)
Theorem catalog_urls_spec (data : list item) (u : string) :
  u ∈ catalog_urls data
  ↔ u ≠ EmptyString ∧ ∃ x, x ∈ data ∧ canonical_url x = Some u.
Proof.
  unfold catalog_urls. rewrite elem_of_catalog_fold.
  split; [|by right]. intros [Hin|H]; [|done]. by apply not_elem_of_empty in Hin.
Qed.

(** X7.  For a catalog that was read and parsed: when the output file holds
    JSON that is not an object, the run ends at the load of the prior
    store with [AttributeError], which [raw.items()] raises, before any
    request, sleep or write. *)
Theorem non_object_store_is_fatal {codec : JsonCodec} (E : env)
    (data : list item) (txt : text) (v : pyval) :
  json_loads txt = Some v →
  (∀ m, v ≠ PDict m) →
  load_existing (Some txt) = Raises (Exception "AttributeError")
  ∧ main E data (Some txt)
    = (Raises (Exception "AttributeError"),
       {| disk := Some txt; trace := [] |}).
Proof.
  intros Hv Hnd.
  assert (Hload : load_existing (Some txt)
                  = Raises (Exception "AttributeError")).
  { simpl. rewrite Hv. destruct v; try done. by destruct (Hnd d). }
  split; [exact Hload|]. unfold main. by rewrite Hload.
Qed.

Lemma non_object_store_is_fatal_witness :
  main (codec := plain_json) only_a catalog_ab (Some array_text)
  = (Raises (Exception "AttributeError"),
     {| disk := Some array_text; trace := [] |}).
Proof.
  apply (non_object_store_is_fatal (codec := plain_json) only_a catalog_ab
           array_text (PList [])); [vm_compute; reflexivity | discriminate].
Defined.

(** X8.  A run with something to scrape ends with a file whose keys are
    the keys of the prior resolved entries and the targets of the catalog:
    no key is dropped, and no key but a catalog target is added. *)
Theorem final_store_keys {codec : JsonCodec} (E : env) (data : list item)
    (d : option text) (existing : gmap string pyval) :
  shuffles E →
  load_existing d = Returns existing →
  to_scrape E (catalog_urls data) existing ≠ [] →
  ∃ final w,
    main E data d = (Returns (), w)
    ∧ disk w = Some (json_dumps (PDict final))
    ∧ dom final = dom existing ∪ catalog_urls data.
Proof.
  intros Hsh Hload Hne.
  destruct (main_full E data d existing Hload Hne)
    as (st & w & evs0 & evs & _ & Hm & _ & _ & _ & _ & Hval & Hout).
  exists (results st), (flush (results st) w). split; [done|]. split; [done|].
  apply set_eq. intros k. rewrite elem_of_union, !elem_of_dom.
  destruct (decide (k ∈ to_scrape E (catalog_urls data) existing)) as [Hk|Hk].
  - destruct (Hval k Hk) as (img & -> & _).
    apply (elem_of_to_scrape E _ _ k Hsh) in Hk as [Hk _].
    split; [by right | by eexists].
  - rewrite (Hout k Hk). split; [by left|]. intros [?|Hcat]; [done|].
    rewrite (elem_of_to_scrape E _ _ k Hsh) in Hk.
    destruct (existing !! k); [by eexists | tauto].
Qed.

Lemma final_store_keys_witness :
  ∃ final w,
    main (codec := value_codec) only_a catalog_ab None = (Returns (), w)
    ∧ disk w = Some (json_dumps (PDict final))
    ∧ dom final = dom (∅ : gmap string pyval) ∪ catalog_urls catalog_ab.
Proof.
  apply (final_store_keys (codec := value_codec) only_a catalog_ab None ∅).
  - apply identity_shuffles. reflexivity.
  - reflexivity.
  - vm_compute. discriminate.
Defined.

(** X9.  When the loop of a run ends, [found] is the number of entries of
    the mapping that are not null, and [completed] the number of targets
    scraped. *)
Theorem found_counts_resolved {codec : JsonCodec} (E : env) (data : list item)
    (d : option text) (existing : gmap string pyval) (w w' : world)
    (st : locals) :
  shuffles E →
  load_existing d = Returns existing →
  loop E (to_scrape E (catalog_urls data) existing) (init_locals existing) w
    = (Returns st, w') →
  found st = Z.of_nat (size (resolved_subset (results st)))
  ∧ completed st
    = Z.of_nat (length (to_scrape E (catalog_urls data) existing)).
Proof.
  intros Hsh Hload Hl. split.
  - eapply (loop_found E); [by apply NoDup_to_scrape | | | exact Hl].
    + intros u Hu. by apply (elem_of_to_scrape E _ _ u Hsh) in Hu as [_ ?].
    + simpl. f_equal. f_equal.
      apply load_existing_inv in Hload as [[_ ->]|(txt & raw & _ & _ & ->)].
      * unfold resolved_subset. by rewrite map_filter_empty.
      * by rewrite resolved_subset_idemp.
  - destruct (loop_inv E (to_scrape E (catalog_urls data) existing)
                (init_locals existing) w) as (st2 & w2 & evs & Hl2 & _ & Hc & _).
    rewrite Hl in Hl2. injection Hl2 as <- <-. by rewrite Hc.
Qed.

Lemma found_counts_resolved_witness :
  ∃ st w',
    loop only_a (to_scrape only_a (catalog_urls catalog_ab) ∅) (init_locals ∅)
      fresh = (Returns st, w')
    ∧ found st = Z.of_nat (size (resolved_subset (results st)))
    ∧ completed st
      = Z.of_nat (length (to_scrape only_a (catalog_urls catalog_ab) ∅)).
Proof.
  destruct (loop only_a (to_scrape only_a (catalog_urls catalog_ab) ∅)
              (init_locals ∅) fresh) as [[st|e] w'] eqn:Hl;
    [|exfalso; vm_compute in Hl; discriminate].
  exists st, w'. split; [reflexivity|].
  exact (found_counts_resolved (codec := value_codec) only_a catalog_ab None ∅
           fresh w' st (identity_shuffles only_a (λ l, eq_refl))
           eq_refl Hl).
Defined.

(** X10.  In a run every target to scrape gets exactly one first attempt,
    and no other address gets any. *)
Theorem each_pending_target_is_fetched_once {codec : JsonCodec} (E : env)
    (data : list item) (d : option text) (existing : gmap string pyval)
    (u : string) :
  shuffles E →
  load_existing d = Returns existing →
  first_attempts u (trace (main E data d).2)
  = if decide (u ∈ catalog_urls data ∧ existing !! u = None)
    then 1%nat else 0%nat.
Proof.
  intros Hsh Hload.
  assert (Hcount :
    length (List.filter (λ v, String.eqb v u)
              (to_scrape E (catalog_urls data) existing))
    = if decide (u ∈ catalog_urls data ∧ existing !! u = None)
      then 1%nat else 0%nat).
  { rewrite count_NoDup by by apply NoDup_to_scrape.
    destruct (decide (u ∈ to_scrape E (catalog_urls data) existing)) as [H1|H1];
      destruct (decide (u ∈ catalog_urls data ∧ existing !! u = None))
        as [H2|H2]; try done;
      rewrite (elem_of_to_scrape E _ _ u Hsh) in H1; done. }
  destruct (decide (to_scrape E (catalog_urls data) existing = [])) as [Hnil|Hne].
  - destruct (main_cases E data d existing Hload) as [[_ ->]|[? _]]; [|done].
    rewrite <- Hcount, Hnil. reflexivity.
  - destruct (main_full E data d existing Hload Hne)
      as (st & w & evs0 & evs & _ & -> & Ht & Hw & _ & Hfa & _).
    assert (H0 : first_attempts u evs0 = 0%nat)
      by (destruct Hw as [-> | ->]; reflexivity).
    simpl. rewrite Ht, !first_attempts_app, Hfa, Hcount, H0.
    change (first_attempts u [Flush (results st)]) with 0%nat. lia.
Qed.

Lemma each_pending_target_is_fetched_once_witness :
  first_attempts url_b (trace (main only_a catalog_ab (Some text_ab)).2) = 1%nat
  ∧ first_attempts url_a (trace (main only_a catalog_ab (Some text_ab)).2) = 0%nat.
Proof.
  split.
  - exact (each_pending_target_is_fetched_once (codec := value_codec) only_a
             catalog_ab (Some text_ab) (resolved_subset store_ab) url_b
             (identity_shuffles only_a (λ l, eq_refl)) eq_refl).
  - exact (each_pending_target_is_fetched_once (codec := value_codec) only_a
             catalog_ab (Some text_ab) (resolved_subset store_ab) url_a
             (identity_shuffles only_a (λ l, eq_refl)) eq_refl).
Defined.


(** X12.  The file lags behind the mapping by less than a batch: when the
    loop has processed [l1] and then [l2], with the length of [l1] a
    multiple of [BATCH_SAVE_EVERY] and [l2] shorter than a batch, the file
    is as it was after [l1], which is the mapping after [l1] unless [l1] is
    empty. *)
Theorem at_most_one_batch_unsaved {codec : JsonCodec} (E : env)
    (l1 l2 : list string) (st : locals) (w : world) :
  completed st = 0 →
  Z.of_nat (length l1) mod BATCH_SAVE_EVERY = 0 →
  Z.of_nat (length l2) < BATCH_SAVE_EVERY →
  ∃ st1 w1 st2 w2,
    loop E l1 st w = (Returns st1, w1)
    ∧ loop E (l1 ++ l2) st w = (Returns st2, w2)
    ∧ disk w2 = disk w1
    ∧ (l1 ≠ [] → disk w1 = Some (json_dumps (PDict (results st1))))
    ∧ (l1 = [] → disk w1 = disk w).
Proof.
  intros Hc Hmod Hlen.
  destruct (loop_inv E l1 st w) as (st1 & w1 & evs1 & Hl1 & _ & Hc1 & _).
  destruct (loop_inv E l2 st1 w1) as (st2 & w2 & evs2 & Hl2 & _).
  exists st1, w1, st2, w2. rewrite loop_app, Hl1.
  split_and!; try done.
  - replace w2 with (loop E l2 st1 w1).2 by by rewrite Hl2.
    apply loop_keeps_disk. rewrite Hc1, Hc, Z.add_0_l, Hmod. lia.
  - intros Hne.
    destruct (loop_flushes E l1 st w Hne) as (st1' & w1' & Hl1' & Hd).
    { by rewrite Hc, Z.add_0_l. }
    rewrite Hl1 in Hl1'. by injection Hl1' as <- <-.
  - intros ->. simpl in Hl1. by injection Hl1 as _ <-.
Qed.

Lemma at_most_one_batch_unsaved_witness :
  ∃ st1 w1 st2 w2,
    loop offline (targets 20) (init_locals ∅) fresh = (Returns st1, w1)
    ∧ loop offline (targets 20 ++ ["x"; "y"; "z"]) (init_locals ∅) fresh
      = (Returns st2, w2)
    ∧ disk w2 = disk w1
    ∧ (targets 20 ≠ [] → disk w1 = Some (json_dumps (PDict (results st1))))
    ∧ (targets 20 = [] → disk w1 = disk fresh).
Proof.
  apply (at_most_one_batch_unsaved (codec := value_codec) offline
           (targets 20) ["x"; "y"; "z"] (init_locals ∅) fresh).
  - reflexivity.
  - reflexivity.
  - reflexivity.
Defined.

(** X13.  What a run stores for a target it scraped is null, or a string
    that the extractor returned for a page the network delivered for that
    very target. *)
Theorem stored_reference_was_extracted {codec : JsonCodec} (E : env)
    (data : list item) (d : option text) (existing : gmap string pyval) :
  load_existing d = Returns existing →
  to_scrape E (catalog_urls data) existing ≠ [] →
  ∃ final w,
    main E data d = (Returns (), w)
    ∧ disk w = Some (json_dumps (PDict final))
    ∧ ∀ u, u ∈ to_scrape E (catalog_urls data) existing →
        final !! u = Some PNone
        ∨ ∃ r h html,
            final !! u = Some (PStr r)
            ∧ transport E h u = Returns html
            ∧ extract_image_url html = Returns (Some r).
Proof.
  intros Hload Hne.
  destruct (main_full E data d existing Hload Hne)
    as (st & w & evs0 & evs & _ & Hm & _ & _ & _ & _ & Hval & _).
  exists (results st), (flush (results st) w). split; [done|]. split; [done|].
  intros u Hu. destruct (Hval u Hu) as ([r|] & Hr & Hprov); [|by left].
  right. destruct (Hprov r eq_refl) as (h & html & Ht & Hx).
  by exists r, h, html.
Qed.

Lemma stored_reference_was_extracted_witness :
  ∃ final w,
    main (codec := value_codec) only_a catalog_ab None = (Returns (), w)
    ∧ disk w = Some (json_dumps (PDict final))
    ∧ ∀ u, u ∈ to_scrape only_a (catalog_urls catalog_ab) ∅ →
        final !! u = Some PNone
        ∨ ∃ r h html,
            final !! u = Some (PStr r)
            ∧ transport only_a h u = Returns html
            ∧ extract_image_url html = Returns (Some r).
Proof.
  apply (stored_reference_was_extracted (codec := value_codec) only_a
           catalog_ab None ∅).
  - reflexivity.
  - vm_compute. discriminate.
Defined.
